(** * go-to-next-problem: marker selection, verified against [src/extension.ts]

    A shallow embedding of the navigation logic of the extension: the glob
    compiler [globToRe], the location comparator [compareDiagnosticLoc], the
    marker filter [filterDiagnostics], the closest-marker selectors
    [getCloserPrev] / [getCloserNext] and the two navigation commands
    [gotoMarkerInFile] / [gotoNextMarkerInFiles], which thread the session
    variable [lastPosition].

    Conventions.
    - A JavaScript string is the list of its UTF-16 code units ([list N]);
      [str "..."] builds one from a literal.
    - Values of the [vscode] API ([Position], [Range], [Uri], [Diagnostic],
      [DiagnosticSeverity]) are records and enumerations with the API's
      documented comparison methods.
    - A thrown [TypeError] is the result [None] of an [option], and the
      completion [Throws] of a command. *)

From Stdlib Require Import List ZArith NArith Bool Lia String Ascii.
From Stdlib Require Import Sorting.Permutation Sorting.Sorted.
Import ListNotations.

Set Warnings "-register-all".

(* ================================================================== *)
(** ** JavaScript strings *)

Module JsString.

(** One UTF-16 code unit. *)
Definition char16 := N.

Definition jsstring := list char16.

Definition ch (a : ascii) : char16 := N_of_ascii a.

Definition str (s : string) : jsstring := map N_of_ascii (list_ascii_of_string s).

(** [a === b] on strings. *)
Fixpoint eqb (a b : jsstring) : bool :=
  match a, b with
  | [], [] => true
  | x :: a', y :: b' => N.eqb x y && eqb a' b'
  | _, _ => false
  end.

(** [a < b] on strings: lexicographic on code units. *)
Fixpoint ltb (a b : jsstring) : bool :=
  match a, b with
  | _, [] => false
  | [], _ :: _ => true
  | x :: a', y :: b' =>
      if N.ltb x y then true else if N.eqb x y then ltb a' b' else false
  end.

End JsString.

Import JsString.

(* ================================================================== *)
(** ** Positions, ranges and locations ([vscode.Position], [vscode.Range]) *)

Record Position := { line : nat; character : nat }.

Definition isBefore (p q : Position) : bool :=
  if Nat.ltb (line p) (line q) then true
  else if Nat.ltb (line q) (line p) then false
  else Nat.ltb (character p) (character q).

Definition isEqual (p q : Position) : bool :=
  Nat.eqb (line p) (line q) && Nat.eqb (character p) (character q).

Record Range := { start : Position; end_ : Position }.

(** [new vscode.Selection(p, p)] and [new vscode.Range(0,0,0,0)]. *)
Definition emptyRangeAt (p : Position) : Range := {| start := p; end_ := p |}.

(** [r.contains(q)] for a position and for a range. *)
Definition containsPosition (r : Range) (p : Position) : bool :=
  negb (isBefore p (start r) || isBefore (end_ r) p).

Definition containsRange (r q : Range) : bool :=
  containsPosition r (start q) && containsPosition r (end_ q).

(** A [vscode.Uri] is only ever read through [toString()]; it is modelled
    by that string. *)
Definition Uri := jsstring.

(** [interface DiagnosticLoc { range; uri? }] *)
Record DiagnosticLoc := { range : Range; uri : option Uri }.

(** [D extends DiagnosticLoc]: every marker type projects to a location. *)
Class Located (D : Type) := loc : D -> DiagnosticLoc.

#[export] Instance Located_DiagnosticLoc : Located DiagnosticLoc := fun l => l.

(** [compareDiagnosticLoc] returns the numbers -1, 0 and 1. *)
Definition comparePositions (a b : DiagnosticLoc) : Z :=
  if isBefore (start (range a)) (start (range b)) then (-1)%Z
  else if isEqual (start (range a)) (start (range b)) then 0%Z
  else 1%Z.

Definition compareDiagnosticLoc (a b : DiagnosticLoc) : Z :=
  match uri a, uri b with
  | Some uria, Some urib =>
      if JsString.eqb uria urib then comparePositions a b
      else if JsString.ltb uria urib then (-1)%Z else 1%Z
  | _, _ => comparePositions a b
  end.

(* ================================================================== *)
(** ** The closest-marker selectors *)

Section Selectors.
Context {D : Type} `{Located D}.

Definition getCloserPrev (cursor : DiagnosticLoc) (marker : D)
    (soFarClosest : option D) : option D :=
  match soFarClosest with
  | None =>
      if (compareDiagnosticLoc (loc marker) cursor <? 0)%Z
      then Some marker else None
  | Some closest =>
      if (compareDiagnosticLoc (loc marker) cursor <=? 0)%Z
         && (compareDiagnosticLoc (loc closest) (loc marker) <? 0)%Z
      then Some marker else Some closest
  end.

Definition getCloserNext (cursor : DiagnosticLoc) (marker : D)
    (soFarClosest : option D) : option D :=
  match soFarClosest with
  | None =>
      if (compareDiagnosticLoc (loc marker) cursor >=? 0)%Z
      then Some marker else None
  | Some closest =>
      if (compareDiagnosticLoc (loc marker) cursor >=? 0)%Z
         && (compareDiagnosticLoc (loc closest) (loc marker) >? 0)%Z
      then Some marker else Some closest
  end.

(** The reduction of the navigation loop without the dedup skip:
    [for (const d of S) next = getCloserNext(cursor, d, next)]. *)
Definition foldNext (cursor : DiagnosticLoc) (S : list D) : option D :=
  fold_left (fun next d => getCloserNext cursor d next) S None.

Definition foldPrev (cursor : DiagnosticLoc) (S : list D) : option D :=
  fold_left (fun next d => getCloserPrev cursor d next) S None.

End Selectors.

(* ================================================================== *)
(** ** Regular expressions: the fragment [globToRe] produces

    [RegExp(src)] is modelled by a parser of pattern text into an abstract
    syntax and [s.match(re) !== null] by the backtracking search of the
    language specification, restricted to the syntax that the text built
    by [globToRe] can contain: alternation, the assertions [^] and [$],
    literal characters, identity escapes of syntax characters, [.] and the
    greedy quantifier [*]. Patterns outside this fragment are not parsed
    ([None]); [parsePattern] never fails on text made by [globToRe]. *)

Inductive Atom :=
| AChar (c : char16)   (* a pattern character, or an escaped one *)
| ADot.                (* [.]: any character except a line terminator *)

Inductive Term :=
| TBol                 (* [^] *)
| TEol                 (* [$] *)
| TAtom (a : Atom)
| TStar (a : Atom).    (* atom followed by [*] *)

Definition Alternative := list Term.

(** A disjunction: alternatives separated by [|], tried left to right. *)
Definition RegExp := list Alternative.

Inductive Token :=
| KBar | KCaret | KDollar | KStar
| KAtom (a : Atom).

Definition c_backslash : char16 := ch "\".
Definition c_star : char16 := ch "*".
Definition c_bar : char16 := ch "|".
Definition c_dot : char16 := ch ".".
Definition c_caret : char16 := ch "^".
Definition c_dollar : char16 := ch "$".

(** The character class [[-\/\\^$+?.()[\]{}]] of the first [replace]. *)
Definition isEscaped (c : char16) : bool :=
  existsb (N.eqb c)
    (map ch ["-"; "/"; "\"; "^"; "$"; "+"; "?"; "."; "("; ")"; "["; "]"; "{"; "}"]%char).

(** Characters with a meaning of their own in pattern text. *)
Definition isSyntaxCharacter (c : char16) : bool :=
  existsb (N.eqb c)
    (map ch ["^"; "$"; "\"; "."; "*"; "+"; "?"; "("; ")"; "["; "]"; "{"; "}"; "|"]%char).

(** Line terminators: LF, CR, LS, PS. *)
Definition isLineTerminator (c : char16) : bool :=
  N.eqb c 10 || N.eqb c 13 || N.eqb c 8232 || N.eqb c 8233.

(** Pattern text to tokens. A backslash is read as an identity escape
    when it precedes a syntax character or one of [-] and [/]. *)
Fixpoint tokenize (s : jsstring) : option (list Token) :=
  match s with
  | [] => Some []
  | c :: s1 =>
      if N.eqb c c_backslash then
        match s1 with
        | e :: s2 =>
            if isSyntaxCharacter e || isEscaped e
            then option_map (cons (KAtom (AChar e))) (tokenize s2)
            else None
        | [] => None
        end
      else if N.eqb c c_bar then option_map (cons KBar) (tokenize s1)
      else if N.eqb c c_caret then option_map (cons KCaret) (tokenize s1)
      else if N.eqb c c_dollar then option_map (cons KDollar) (tokenize s1)
      else if N.eqb c c_star then option_map (cons KStar) (tokenize s1)
      else if N.eqb c c_dot then option_map (cons (KAtom ADot)) (tokenize s1)
      else if isSyntaxCharacter c then None
      else option_map (cons (KAtom (AChar c))) (tokenize s1)
  end.

Definition addTerm (t : Term) (r : option RegExp) : option RegExp :=
  match r with
  | Some (alt :: alts) => Some ((t :: alt) :: alts)
  | _ => None
  end.

(** Tokens to a disjunction; a [*] that follows no atom is a syntax error. *)
Fixpoint parseTokens (ts : list Token) : option RegExp :=
  match ts with
  | [] => Some [[]]
  | KBar :: ts1 => option_map (cons []) (parseTokens ts1)
  | KCaret :: ts1 => addTerm TBol (parseTokens ts1)
  | KDollar :: ts1 => addTerm TEol (parseTokens ts1)
  | KStar :: _ => None
  | KAtom a :: ts1 =>
      match ts1 with
      | KStar :: ts2 => addTerm (TStar a) (parseTokens ts2)
      | _ => addTerm (TAtom a) (parseTokens ts1)
      end
  end.

Definition parsePattern (s : jsstring) : option RegExp :=
  match tokenize s with
  | Some ts => parseTokens ts
  | None => None
  end.

Definition atomMatches (a : Atom) (c : char16) : bool :=
  match a with
  | AChar x => N.eqb x c
  | ADot => negb (isLineTerminator c)
  end.

(** Does the sequence of terms match a prefix of [input]? [atStart] tells
    whether [input] begins at index 0 of the subject string. *)
Fixpoint matchTerms (ts : Alternative) (atStart : bool) (input : jsstring) : bool :=
  match ts with
  | [] => true
  | TBol :: ts' => atStart && matchTerms ts' atStart input
  | TEol :: ts' =>
      match input with
      | [] => matchTerms ts' atStart input
      | _ :: _ => false
      end
  | TAtom a :: ts' =>
      match input with
      | c :: rest => atomMatches a c && matchTerms ts' false rest
      | [] => false
      end
  | TStar a :: ts' =>
      (fix star (atStart : bool) (input : jsstring) : bool :=
         match input with
         | c :: rest =>
             (atomMatches a c && star false rest) || matchTerms ts' atStart input
         | [] => matchTerms ts' atStart input
         end) atStart input
  end.

Definition matchAt (re : RegExp) (atStart : bool) (input : jsstring) : bool :=
  existsb (fun alt => matchTerms alt atStart input) re.

(** Try every start index from the current one to the end of the subject. *)
Fixpoint search (re : RegExp) (atStart : bool) (input : jsstring) : bool :=
  matchAt re atStart input
  || match input with
     | [] => false
     | _ :: rest => search re false rest
     end.

(** [s.match(re) !== null] *)
Definition matches (s : jsstring) (re : RegExp) : bool := search re true s.

(* ================================================================== *)
(** ** [globToRe] *)

(** [.replace(/[-\/\\^$+?.()[\]{}]/g, "\\$&")] *)
Definition escapeSpecials (pattern : jsstring) : jsstring :=
  flat_map (fun c => if isEscaped c then [c_backslash; c] else [c]) pattern.

(** [.replace(/\*/g, ".*")] *)
Definition expandStars (s : jsstring) : jsstring :=
  flat_map (fun c => if N.eqb c c_star then [c_dot; c_star] else [c]) s.

Definition rePattern (pattern : jsstring) : jsstring :=
  expandStars (escapeSpecials pattern).

Definition globToRe (pattern : jsstring) : option RegExp :=
  parsePattern (str "^" ++ rePattern pattern ++ str "$").

(* ================================================================== *)
(** ** Markers *)

(** [vscode.DiagnosticSeverity] *)
Inductive DiagnosticSeverity := Error | Warning | Information | Hint.

Definition severity_eqb (a b : DiagnosticSeverity) : bool :=
  match a, b with
  | Error, Error | Warning, Warning | Information, Information | Hint, Hint => true
  | _, _ => false
  end.

(** The fields of [vscode.Diagnostic] that the extension reads. *)
Record Diagnostic := {
  diag_range : Range;
  diag_severity : DiagnosticSeverity;
  diag_source : option jsstring;
  diag_message : jsstring
}.

(** [interface DiagnosticWithUri extends vscode.Diagnostic { uri }],
    built by [{ ...d, uri }]. *)
Record DiagnosticWithUri := { diag : Diagnostic; diag_uri : Uri }.

(** [D extends vscode.Diagnostic] *)
Class IsDiagnostic (D : Type) := {
  severity : D -> DiagnosticSeverity;
  source : D -> option jsstring
}.

#[export] Instance IsDiagnostic_Diagnostic : IsDiagnostic Diagnostic :=
  {| severity := diag_severity; source := diag_source |}.

#[export] Instance IsDiagnostic_DiagnosticWithUri : IsDiagnostic DiagnosticWithUri :=
  {| severity := fun d => diag_severity (diag d);
     source := fun d => diag_source (diag d) |}.

(** A [vscode.Diagnostic] has no [uri] property. *)
#[export] Instance Located_Diagnostic : Located Diagnostic :=
  fun d => {| range := diag_range d; uri := None |}.

#[export] Instance Located_DiagnosticWithUri : Located DiagnosticWithUri :=
  fun d => {| range := diag_range (diag d); uri := Some (diag_uri d) |}.

(* ================================================================== *)
(** ** Command arguments

    [args] is the raw value of the key binding's ["args"]: any JSON value,
    or [undefined]. *)

Inductive jsval :=
| JUndefined
| JNull
| JBool (b : bool)
| JNumber (n : Z)
| JString (s : jsstring)
| JArray (elems : list jsval)
| JObject (props : list (jsstring * jsval)).

(** [typeof v === "object"] *)
Definition typeofObject (v : jsval) : bool :=
  match v with
  | JNull | JArray _ | JObject _ => true
  | _ => false
  end.

Definition isArray (v : jsval) : bool :=
  match v with JArray _ => true | _ => false end.

(** [!!v] *)
Definition truthy (v : jsval) : bool :=
  match v with
  | JUndefined | JNull => false
  | JBool b => b
  | JNumber n => negb (Z.eqb n 0)
  | JString s => negb (JsString.eqb s [])
  | JArray _ | JObject _ => true
  end.

(** [v === "..."] against a string literal. *)
Definition isString (v : jsval) (lit : string) : bool :=
  match v with
  | JString s => JsString.eqb s (str lit)
  | _ => false
  end.

Fixpoint lookup (key : jsstring) (props : list (jsstring * jsval)) : jsval :=
  match props with
  | [] => JUndefined
  | (k, v) :: rest => if JsString.eqb k key then v else lookup key rest
  end.

(** [v.key] for a property name that no built-in prototype defines (as
    [severity] and [source]): a [TypeError] on [undefined] and [null]. *)
Definition getProp (v : jsval) (key : string) : option jsval :=
  match v with
  | JUndefined | JNull => None
  | JObject props => Some (lookup (str key) props)
  | _ => Some JUndefined
  end.

(* ================================================================== *)
(** ** [filterDiagnostics] *)

(** The callback of [args.severity.flatMap]: an array for a recognised
    name; the [switch] has no other case, so the callback returns
    [undefined] for any other value. *)
Inductive CallbackResult :=
| ReturnsArray (l : list DiagnosticSeverity)
| ReturnsUndefined.

Definition severityOfName (s : jsval) : CallbackResult :=
  if isString s "error" then ReturnsArray [Error]
  else if isString s "warn" then ReturnsArray [Warning]
  else if isString s "warning" then ReturnsArray [Warning]
  else if isString s "info" then ReturnsArray [Information]
  else if isString s "information" then ReturnsArray [Information]
  else if isString s "hint" then ReturnsArray [Hint]
  else ReturnsUndefined.

(** [Array.prototype.flatMap]: a returned array is spliced in, any other
    returned value is kept as one element. An element of the result is a
    severity or [undefined] ([None]). *)
Definition flatMapSeverities (l : list jsval) : list (option DiagnosticSeverity) :=
  flat_map (fun s => match severityOfName s with
                     | ReturnsArray sevs => map Some sevs
                     | ReturnsUndefined => [None]
                     end) l.

(** [severities.has(x)] *)
Definition setHas (set : list (option DiagnosticSeverity)) (x : DiagnosticSeverity) : bool :=
  existsb (fun m => match m with Some y => severity_eqb y x | None => false end) set.

Definition defaultSeverities : list (option DiagnosticSeverity) :=
  [Some Error; Some Warning].

(** Lines 59-81: the severity set in force. *)
Definition severitiesOf (args : jsval) : option (list (option DiagnosticSeverity)) :=
  if typeofObject args then
    match getProp args "severity" with
    | None => None
    | Some (JArray l) =>
        let argSeverities := flatMapSeverities l in
        if (0 <? List.length argSeverities)%nat then Some argSeverities
        else Some defaultSeverities
    | Some _ => Some defaultSeverities
    end
  else Some defaultSeverities.

Section Filter.
Context {D : Type} `{IsDiagnostic D}.

(** [dg.source !== undefined && dg.source.match(reSource) !== null] *)
Definition sourceMatches (reSource : RegExp) (dg : D) : bool :=
  match source dg with
  | Some s => matches s reSource
  | None => false
  end.

(** Lines 91-104: [for (const source of args.source) ...; return []].
    A pattern that is not a string has no [replace] method, and
    [globToRe] throws. *)
Fixpoint sourceLoop (ds : list D) (sources : list jsval) : option (list D) :=
  match sources with
  | [] => Some []
  | src :: rest =>
      if isString src "*" then Some ds
      else match src with
           | JString pattern =>
               match globToRe pattern with
               | Some reSource =>
                   let dsOfSource := filter (sourceMatches reSource) ds in
                   if (0 <? List.length dsOfSource)%nat then Some dsOfSource
                   else sourceLoop ds rest
               | None => None
               end
           | _ => None
           end
  end.

Definition filterDiagnostics (ds : list D) (args : jsval) : option (list D) :=
  match severitiesOf args with
  | None => None
  | Some severities =>
      let ds := filter (fun dg => setHas severities (severity dg)) ds in
      if negb (typeofObject args) then Some ds
      else match getProp args "source" with
           | None => None
           | Some src =>
               if negb (truthy src) || negb (isArray src) then Some ds
               else match src with
                    | JArray sources => sourceLoop ds sources
                    | _ => Some ds
                    end
           end
  end.

End Filter.

(** Lines 107-112. *)
Definition isFilterErrorOnly (args : jsval) : option bool :=
  if negb (typeofObject args) then Some false
  else match getProp args "severity" with
       | None => None
       | Some sev =>
           match sev with
           | JArray l =>
               match l with
               | first :: _ => Some (isString first "error")
               | [] => Some false
               end
           | _ => Some false
           end
       end.

(* ================================================================== *)
(** ** [sortDiagnostics]

    [Array.prototype.sort] is stable, and for a consistent comparator its
    result is the one sorted arrangement that keeps equal elements in
    their original order; a stable insertion sort computes it. The
    comparator is consistent on the lists the commands sort, whose markers
    all lack a [uri] ([vscode.Diagnostic]) or all carry one
    ([DiagnosticWithUri]). *)

Section Sort.
Context {D : Type} `{Located D}.

Fixpoint insertSorted (x : D) (l : list D) : list D :=
  match l with
  | [] => [x]
  | y :: l' =>
      if (compareDiagnosticLoc (loc x) (loc y) <=? 0)%Z then x :: l
      else y :: insertSorted x l'
  end.

Definition sortDiagnostics (diagnostics : list D) : list D :=
  fold_right insertSorted [] diagnostics.

End Sort.

(* ================================================================== *)
(** ** The navigation commands

    The closure variable [lastPosition] is threaded explicitly: each
    command takes its value at entry and returns its value at exit together
    with the requests made to the editor, in order. *)

(** ["next" | "prev"] *)
Inductive Direction := DirNext | DirPrev.

(** [{ uri: vscode.Uri; position: vscode.Position }] *)
Record LastPosition := { last_uri : Uri; last_position : Position }.

(** [vscode.window.activeTextEditor] *)
Record TextEditor := {
  document_uri : Uri;
  selection : Range;
  visibleRanges : list Range
}.

(** What the commands read from the editor host. *)
Record Host := {
  activeTextEditor : option TextEditor;
  getDiagnostics : list (Uri * list Diagnostic);
  smoothScrolling : bool
}.

(** [vscode.languages.getDiagnostics(uri)] *)
Fixpoint diagnosticsOf (all : list (Uri * list Diagnostic)) (u : Uri) : list Diagnostic :=
  match all with
  | [] => []
  | (u', ds) :: rest => if JsString.eqb u' u then ds else diagnosticsOf rest u
  end.

Inductive Command :=
| CloseMarkersNavigation
| MarkerNext
| ShowHover
| MarkerNextInFiles
| MarkerPrevInFiles.

Inductive Effect :=
| ShowTextDocument (u : Uri)
| SetSelection (r : Range)
| ExecuteCommand (c : Command)
| RevealRange (r : Range)
| Delay (ms : nat).

Inductive Completion (A : Type) :=
| Returns (v : A)
| Throws.

Arguments Returns {A} v.
Arguments Throws {A}.

(** What a command has done when it ends: the value of [lastPosition], the
    requests made to the editor in order, and how the command completes in
    a run where each of those requests succeeds. *)
Record Outcome (A : Type) := {
  completion : Completion A;
  lastPosition : option LastPosition;
  effects : list Effect
}.

Arguments completion {A} _.
Arguments lastPosition {A} _.
Arguments effects {A} _.

Section Candidates.
Context {D : Type} `{Located D}.

(** [lastPosition && d.range.start.isEqual(lastPosition.position)] *)
Definition skipped (lastPosition : option LastPosition) (d : D) : bool :=
  match lastPosition with
  | Some lp => isEqual (start (range (loc d))) (last_position lp)
  | None => false
  end.

(** The loop of lines 197-206, repeated at lines 311-320. *)
Definition closestMarker (lastPosition : option LastPosition) (direction : Direction)
    (cursor : DiagnosticLoc) (diagnostics : list D) : option D :=
  fold_left
    (fun next d =>
       if skipped lastPosition d then next
       else match direction with
            | DirNext => getCloserNext cursor d next
            | DirPrev => getCloserPrev cursor d next
            end)
    diagnostics None.

(** [sortedMarkers[0]] or [sortedMarkers[sortedMarkers.length - 1]];
    [None] is [undefined]. *)
Definition wrapAround (direction : Direction) (diagnostics : list D) : option D :=
  let sortedMarkers := sortDiagnostics diagnostics in
  match direction with
  | DirNext => nth_error sortedMarkers 0
  | DirPrev => nth_error sortedMarkers (List.length sortedMarkers - 1)
  end.

End Candidates.

(** Line 184: [lastPosition?.uri.toString() !== editor.document.uri.toString()]
    clears [lastPosition]. *)
Definition resetLastPosition (lastPosition : option LastPosition) (editor : TextEditor)
    : option LastPosition :=
  match lastPosition with
  | Some lp =>
      if negb (JsString.eqb (last_uri lp) (document_uri editor)) then None
      else Some lp
  | None => None
  end.

(** Lines 218-222. *)
Definition alreadyThere (lastPosition : option LastPosition) (editor : TextEditor)
    (next : Diagnostic) : bool :=
  match lastPosition with
  | Some lp =>
      isEqual (last_position lp) (start (diag_range next))
      && isEqual (start (selection editor)) (start (diag_range next))
  | None => false
  end.

(** Lines 231-268: select the marker and show it. *)
Definition selectInFile (host : Host) (editor : TextEditor) (args : jsval)
    (next : Diagnostic) : Outcome bool :=
  let lastPosition :=
    Some {| last_position := start (diag_range next); last_uri := document_uri editor |} in
  let selection' := emptyRangeAt (start (diag_range next)) in
  let moved := [SetSelection selection'; ExecuteCommand CloseMarkersNavigation] in
  match isFilterErrorOnly args with
  | None =>
      {| completion := Throws; lastPosition := lastPosition; effects := moved |}
  | Some true =>
      {| completion := Returns true; lastPosition := lastPosition;
         effects := moved ++ [ExecuteCommand MarkerNext] |}
  | Some false =>
      let scroll :=
        if negb (forallb (fun r => containsRange r selection') (visibleRanges editor))
        then RevealRange (diag_range next)
             :: (if smoothScrolling host then [Delay 150] else [])
        else [] in
      {| completion := Returns true; lastPosition := lastPosition;
         effects := moved ++ scroll ++ [ExecuteCommand ShowHover] |}
  end.

Definition gotoMarkerInFile (host : Host) (lastPosition : option LastPosition)
    (args : jsval) (direction : Direction) (loop : bool) : Outcome bool :=
  match activeTextEditor host with
  | None => {| completion := Returns false; lastPosition := lastPosition; effects := [] |}
  | Some editor =>
      match filterDiagnostics (diagnosticsOf (getDiagnostics host) (document_uri editor)) args with
      | None => {| completion := Throws; lastPosition := lastPosition; effects := [] |}
      | Some diagnostics =>
          let lastPosition := resetLastPosition lastPosition editor in
          if (List.length diagnostics =? 0)%nat then
            {| completion := Returns false; lastPosition := lastPosition; effects := [] |}
          else
            let cursor := {| range := selection editor; uri := None |} in
            match closestMarker lastPosition direction cursor diagnostics with
            | Some next => selectInFile host editor args next
            | None =>
                if loop then
                  match wrapAround direction diagnostics with
                  | Some next =>
                      if alreadyThere lastPosition editor next then
                        {| completion := Returns true; lastPosition := lastPosition;
                           effects := [] |}
                      else selectInFile host editor args next
                  | None =>
                      {| completion := Throws; lastPosition := lastPosition; effects := [] |}
                  end
                else
                  {| completion := Returns false; lastPosition := lastPosition;
                     effects := [] |}
            end
      end
  end.

(** [getDiagnostics().flatMap(([uri, ds]) => ds.map((d) => ({ ...d, uri })))] *)
Definition diagnosticsWithUri (all : list (Uri * list Diagnostic)) : list DiagnosticWithUri :=
  flat_map (fun entry => map (fun d => {| diag := d; diag_uri := fst entry |}) (snd entry)) all.

(** [vscode.Uri.file("/").toString()] *)
Definition rootUri : Uri := str "file:///".

(** Lines 298-307. *)
Definition cursorInFiles (host : Host) : DiagnosticLoc :=
  match activeTextEditor host with
  | None => {| uri := Some rootUri; range := emptyRangeAt {| line := 0; character := 0 |} |}
  | Some activeEditor =>
      {| uri := Some (document_uri activeEditor); range := selection activeEditor |}
  end.

(** Lines 308-329: the marker the command will go to. *)
Definition targetInFiles (lastPosition : option LastPosition) (direction : Direction)
    (cursor : DiagnosticLoc) (diagnostics : list DiagnosticWithUri) : option DiagnosticWithUri :=
  match closestMarker lastPosition direction cursor diagnostics with
  | Some next => Some next
  | None => wrapAround direction diagnostics
  end.

Definition gotoNextMarkerInFiles (host : Host) (lastPosition : option LastPosition)
    (args : jsval) (direction : Direction) : Outcome unit :=
  match filterDiagnostics (diagnosticsWithUri (getDiagnostics host)) args with
  | None => {| completion := Throws; lastPosition := lastPosition; effects := [] |}
  | Some diagnostics =>
      if (List.length diagnostics =? 0)%nat then
        {| completion := Returns tt; lastPosition := lastPosition; effects := [] |}
      else
        match targetInFiles lastPosition direction (cursorInFiles host) diagnostics with
        | None => {| completion := Throws; lastPosition := lastPosition; effects := [] |}
        | Some next =>
            let p := start (diag_range (diag next)) in
            {| completion := Returns tt;
               lastPosition := Some {| last_position := p; last_uri := diag_uri next |};
               effects :=
                 [ShowTextDocument (diag_uri next);
                  SetSelection (emptyRangeAt p);
                  ExecuteCommand CloseMarkersNavigation;
                  ExecuteCommand (match direction with
                                  | DirNext => MarkerNextInFiles
                                  | DirPrev => MarkerPrevInFiles
                                  end)] |}
        end
  end.

(* ================================================================== *)
(** ** Vocabulary of the statements *)

(** Whether a location carries a document identifier. *)
Definition hasUri (a : DiagnosticLoc) : bool :=
  match uri a with Some _ => true | None => false end.

(** All markers of a list carry a document identifier, or none does. *)
Definition uniformUri {D : Type} `{Located D} (S : list D) : Prop :=
  forall s t, In s S -> In t S -> hasUri (loc s) = hasUri (loc t).

(** [a <= b] under the comparator. *)
Definition leLoc {D : Type} `{Located D} (a b : D) : Prop :=
  (compareDiagnosticLoc (loc a) (loc b) <= 0)%Z.

(** [m] is a least element, under the comparator, of the markers of [S]
    that are at or after [C]. *)
Definition isMinAtOrAfter {D : Type} `{Located D} (C : DiagnosticLoc) (S : list D) (m : D) : Prop :=
  In m S /\ (compareDiagnosticLoc (loc m) C >= 0)%Z /\
  forall s, In s S -> (compareDiagnosticLoc (loc s) C >= 0)%Z ->
            (compareDiagnosticLoc (loc m) (loc s) <= 0)%Z.

Definition pos (l c : nat) : Position := {| line := l; character := c |}.

(** A location without a document identifier, and one inside a document. *)
Definition at_ (l c : nat) : DiagnosticLoc :=
  {| range := emptyRangeAt (pos l c); uri := None |}.

Definition inDoc (u : string) (l c : nat) : DiagnosticLoc :=
  {| range := emptyRangeAt (pos l c); uri := Some (str u) |}.

(** A marker of the active document and the cursor sitting on its start. *)
Definition markerAt (l c : nat) (sev : DiagnosticSeverity) (src : option jsstring) : Diagnostic :=
  {| diag_range := {| start := pos l c; end_ := pos l (c + 5) |};
     diag_severity := sev;
     diag_source := src;
     diag_message := str "problem" |}.

(** Glob matching of a whole string: [*] spans zero or more characters
    accepted by [wild], every other pattern character stands for itself. *)
Fixpoint globMatchWith (wild : char16 -> bool) (pattern s : jsstring) : bool :=
  match pattern with
  | [] => match s with [] => true | _ :: _ => false end
  | p :: pattern' =>
      if N.eqb p c_star then
        (fix star (s : jsstring) : bool :=
           globMatchWith wild pattern' s
           || match s with
              | c :: rest => wild c && star rest
              | [] => false
              end) s
      else
        match s with
        | c :: rest => N.eqb p c && globMatchWith wild pattern' rest
        | [] => false
        end
  end.

(** The matcher as the specification words it: [*] spans any characters
    and every other character, [|] included, is literal. *)
Definition specGlobMatch : jsstring -> jsstring -> bool :=
  globMatchWith (fun _ => true).

(** The same, with [*] stopping at line terminators as [.] does. *)
Definition globMatch : jsstring -> jsstring -> bool :=
  globMatchWith (fun c => negb (isLineTerminator c)).

(** The pieces of a pattern between its [|] characters. *)
Fixpoint splitBars (pattern : jsstring) : list jsstring :=
  match pattern with
  | [] => [[]]
  | c :: pattern' =>
      if N.eqb c c_bar then [] :: splitBars pattern'
      else match splitBars pattern' with
           | alt :: alts => (c :: alt) :: alts
           | [] => [[c]]
           end
  end.

Definition hasBar (pattern : jsstring) : bool := existsb (N.eqb c_bar) pattern.

(** The syntax tree [globToRe] arrives at, computed from the glob directly. *)
Definition termOf (c : char16) : Term :=
  if N.eqb c c_star then TStar ADot else TAtom (AChar c).

Fixpoint compileAlts (pattern : jsstring) : RegExp :=
  match pattern with
  | [] => [[TEol]]
  | c :: pattern' =>
      if N.eqb c c_bar then [] :: compileAlts pattern'
      else match compileAlts pattern' with
           | alt :: alts => (termOf c :: alt) :: alts
           | [] => []
           end
  end.

Definition compileGlob (pattern : jsstring) : RegExp :=
  match compileAlts pattern with
  | alt :: alts => (TBol :: alt) :: alts
  | [] => []
  end.

Definition tokensOf (c : char16) : list Token :=
  if N.eqb c c_star then [KAtom ADot; KStar]
  else if N.eqb c c_bar then [KBar]
  else [KAtom (AChar c)].

(** What the two [replace] calls make of one pattern character. *)
Definition expansion (c : char16) : jsstring :=
  if isEscaped c then [c_backslash; c]
  else if N.eqb c c_star then [c_dot; c_star]
  else [c].

(** A whole-string glob match of an alternative makes its terms succeed. *)
Definition accepts (alt : jsstring) (ts : Alternative) : Prop :=
  forall s b, globMatch alt s = true -> matchTerms ts b s = true.

Section FilterVocabulary.
Context {D : Type} `{IsDiagnostic D}.

(** The markers that pass the severity stage (line 82). *)
Definition keptBySeverity (ds : list D) (args : jsval) : list D :=
  match severitiesOf args with
  | Some severities => filter (fun dg => setHas severities (severity dg)) ds
  | None => []
  end.

(** The marker has a source and the expression compiled from [pattern]
    matches it (lines 95-98). *)
Definition patternMatches (pattern : jsstring) (dg : D) : bool :=
  match globToRe pattern with
  | Some reSource => sourceMatches reSource dg
  | None => false
  end.

Definition isStar (pattern : jsstring) : bool := JsString.eqb pattern (str "*").

(** What one round of the priority loop selects: everything for the
    wildcard ["*"] (line 92), else the markers whose source matches. *)
Definition patternSelects (pattern : jsstring) (dg : D) : bool :=
  isStar pattern || patternMatches pattern dg.

Definition selectedBy (pattern : jsstring) (kept : list D) : list D :=
  filter (patternSelects pattern) kept.

End FilterVocabulary.

(** [{ "severity": [...], "source": [...] }] *)
Definition propsOf (sev : list string) (src : list string) : list (jsstring * jsval) :=
  [(str "severity", JArray (map (fun s => JString (str s)) sev));
   (str "source", JArray (map (fun s => JString (str s)) src))].

Definition argsOf (sev : list string) (src : list string) : jsval :=
  JObject (propsOf sev src).

Definition severityArgs (sev : list string) : jsval :=
  JObject [(str "severity", JArray (map (fun s => JString (str s)) sev))].

(** The cursor of in-document navigation (line 193): no document identifier. *)
Definition cursorInFile (editor : TextEditor) : DiagnosticLoc :=
  {| range := selection editor; uri := None |}.

(** The directional fold over the candidates that are not skipped. *)
Definition foldDirection {D : Type} `{Located D} (direction : Direction)
    (cursor : DiagnosticLoc) (S : list D) : option D :=
  match direction with
  | DirNext => foldNext cursor S
  | DirPrev => foldPrev cursor S
  end.

Definition notSkipped {D : Type} `{Located D} (lastPosition : option LastPosition)
    (diagnostics : list D) : list D :=
  filter (fun d => negb (skipped lastPosition d)) diagnostics.

(** A session with one document open, one error at line 3 and the cursor
    on it. *)
Definition docA : Uri := str "file:///a.ts".
Definition docB : Uri := str "file:///b.ts".

Definition editorAt (doc : Uri) (l c : nat) : TextEditor :=
  {| document_uri := doc; selection := emptyRangeAt (pos l c); visibleRanges := [] |}.

Definition hostOneMarker : Host :=
  {| activeTextEditor := Some (editorAt docA 3 0);
     getDiagnostics := [(docA, [markerAt 3 0 Error None])];
     smoothScrolling := false |}.

(** The active document [docB] has no marker. *)
Definition hostNoMarker : Host :=
  {| activeTextEditor := Some (editorAt docB 0 0);
     getDiagnostics := [(docA, [markerAt 3 0 Error None])];
     smoothScrolling := false |}.

Definition visited (doc : Uri) (l c : nat) : LastPosition :=
  {| last_uri := doc; last_position := pos l c |}.

(** Tightness of the fold of [getCloserNext] over a list of candidates: it
    yields [null] exactly when no candidate is at or after the cursor, and
    otherwise yields a least candidate at or after the cursor, equal under
    the comparator to every such least candidate. *)
Definition foldNextTight {D : Type} `{Located D} (C : DiagnosticLoc) (S : list D) : Prop :=
  (foldNext C S = None <->
   forall s, In s S -> (compareDiagnosticLoc (loc s) C < 0)%Z) /\
  ((exists s, In s S /\ (compareDiagnosticLoc (loc s) C >= 0)%Z) ->
   exists r, foldNext C S = Some r) /\
  (forall r, foldNext C S = Some r ->
     isMinAtOrAfter C S r /\
     forall m, isMinAtOrAfter C S m -> compareDiagnosticLoc (loc r) (loc m) = 0%Z).

(** The candidate holds no line terminator. *)
Definition noLineTerminator (s : jsstring) : bool :=
  forallb (fun c => negb (isLineTerminator c)) s.

(** A match of the terms leaves a prefix that the alternative accepts as a
    glob. *)
Definition accepted (alt : jsstring) (ts : Alternative) : Prop :=
  forall s b, matchTerms ts b s = true ->
    exists u post, s = u ++ post /\ globMatch alt u = true.

(** The pattern has no [*]. *)
Definition hasStar (pattern : jsstring) : bool := existsb (N.eqb c_star) pattern.

(** A [source] entry that is a string. *)
Definition isJString (v : jsval) : bool :=
  match v with JString _ => true | _ => false end.

(** The number of [|] characters of a pattern. *)
Definition countBars (pattern : jsstring) : nat :=
  List.length (filter (N.eqb c_bar) pattern).

(** Lines 84-104, on the list the severity stage has kept. *)
Definition sourceStage {D : Type} `{IsDiagnostic D} (kept : list D) (args : jsval)
    : option (list D) :=
  if negb (typeofObject args) then Some kept
  else match getProp args "source" with
       | None => None
       | Some src =>
           if negb (truthy src) || negb (isArray src) then Some kept
           else match src with
                | JArray sources => sourceLoop kept sources
                | _ => Some kept
                end
       end.

(** What a [severity] value asks for: a marker of severity [x] passes. *)
Definition severityWanted (sev : jsval) (x : DiagnosticSeverity) : Prop :=
  match sev with
  | JArray (first :: rest) =>
      exists s, In s (first :: rest) /\ severityOfName s = ReturnsArray [x]
  | _ => x = Error \/ x = Warning
  end.

(* ================================================================== *)
(** ** Tactics *)

(** Case analysis on the comparisons of line and character numbers. *)
Ltac nat_cases :=
  repeat match goal with
    | |- context [Nat.ltb ?a ?b] => destruct (Nat.ltb_spec a b)
    | |- context [Nat.eqb ?a ?b] => destruct (Nat.eqb_spec a b)
    | H : context [Nat.ltb ?a ?b] |- _ => destruct (Nat.ltb_spec a b)
    | H : context [Nat.eqb ?a ?b] |- _ => destruct (Nat.eqb_spec a b)
    end; simpl in *; try lia; try congruence.

(* ================================================================== *)
(** * Properties *)

(** ** Strings *)

Lemma jsstring_eqb_spec (a b : jsstring) : reflect (a = b) (JsString.eqb a b).
Proof.
  revert b; induction a as [|x a IH]; intros [|y b]; simpl; try (constructor; congruence).
  destruct (N.eqb_spec x y) as [->|Hxy]; simpl.
  - destruct (IH b) as [->|Hab]; constructor; congruence.
  - constructor; congruence.
Qed.

Lemma jsstring_eqb_refl (a : jsstring) : JsString.eqb a a = true.
Proof. destruct (jsstring_eqb_spec a a); congruence. Qed.

Lemma jsstring_eqb_sym (a b : jsstring) : JsString.eqb a b = JsString.eqb b a.
Proof.
  destruct (jsstring_eqb_spec a b), (jsstring_eqb_spec b a); congruence.
Qed.

Lemma jsstring_ltb_irrefl (a : jsstring) : JsString.ltb a a = false.
Proof.
  induction a as [|x a IH]; simpl; auto.
  rewrite N.ltb_irrefl, N.eqb_refl; exact IH.
Qed.

Lemma jsstring_ltb_trans (a b c : jsstring) :
  JsString.ltb a b = true -> JsString.ltb b c = true -> JsString.ltb a c = true.
Proof.
  revert b c; induction a as [|x a IH]; intros [|y b] [|z c]; simpl; try congruence.
  destruct (N.ltb_spec x y), (N.ltb_spec y z), (N.ltb_spec x z),
    (N.eqb_spec x y), (N.eqb_spec y z), (N.eqb_spec x z);
    try congruence; try lia; eauto.
Qed.

Lemma jsstring_ltb_total (a b : jsstring) :
  JsString.eqb a b = false -> JsString.ltb a b = false -> JsString.ltb b a = true.
Proof.
  revert b; induction a as [|x a IH]; intros [|y b]; simpl; try congruence.
  destruct (N.ltb_spec x y), (N.ltb_spec y x), (N.eqb_spec x y), (N.eqb_spec y x);
    simpl; try congruence; try lia; auto.
Qed.

Lemma jsstring_ltb_asym (a b : jsstring) :
  JsString.ltb a b = true -> JsString.ltb b a = false.
Proof.
  intros Hab; destruct (JsString.ltb b a) eqn:Hba; auto.
  pose proof (jsstring_ltb_trans _ _ _ Hab Hba) as Haa.
  rewrite jsstring_ltb_irrefl in Haa; discriminate.
Qed.

(** ** The location comparator *)

Lemma comparePositions_refl (a : DiagnosticLoc) : comparePositions a a = 0%Z.
Proof. unfold comparePositions, isBefore, isEqual; nat_cases. Qed.

Lemma comparePositions_antisym (a b : DiagnosticLoc) :
  comparePositions b a = (- comparePositions a b)%Z.
Proof. unfold comparePositions, isBefore, isEqual; nat_cases. Qed.

Lemma comparePositions_trans (a b c : DiagnosticLoc) :
  (comparePositions a b <= 0)%Z -> (comparePositions b c <= 0)%Z ->
  (comparePositions a c <= 0)%Z.
Proof. unfold comparePositions, isBefore, isEqual; nat_cases. Qed.

Lemma comparePositions_zero (a b : DiagnosticLoc) :
  comparePositions a b = 0%Z <-> start (range a) = start (range b).
Proof.
  unfold comparePositions, isBefore, isEqual.
  destruct (start (range a)) as [la ca], (start (range b)) as [lb cb]; simpl.
  split; intros Hx.
  - nat_cases.
  - injection Hx as -> ->. nat_cases.
Qed.

Lemma compareDiagnosticLoc_refl (a : DiagnosticLoc) : compareDiagnosticLoc a a = 0%Z.
Proof.
  unfold compareDiagnosticLoc; destruct (uri a) as [u|].
  - rewrite jsstring_eqb_refl; apply comparePositions_refl.
  - apply comparePositions_refl.
Qed.

Lemma compareDiagnosticLoc_antisym (a b : DiagnosticLoc) :
  compareDiagnosticLoc b a = (- compareDiagnosticLoc a b)%Z.
Proof.
  unfold compareDiagnosticLoc.
  destruct (uri a) as [ua|], (uri b) as [ub|]; try apply comparePositions_antisym.
  rewrite (jsstring_eqb_sym ub ua).
  destruct (JsString.eqb ua ub) eqn:E; [apply comparePositions_antisym|].
  destruct (JsString.ltb ua ub) eqn:L.
  - rewrite (jsstring_ltb_asym _ _ L); reflexivity.
  - rewrite (jsstring_ltb_total _ _ E L); reflexivity.
Qed.

Lemma compareDiagnosticLoc_trans (a b c : DiagnosticLoc) :
  hasUri a = hasUri b -> hasUri b = hasUri c ->
  (compareDiagnosticLoc a b <= 0)%Z -> (compareDiagnosticLoc b c <= 0)%Z ->
  (compareDiagnosticLoc a c <= 0)%Z.
Proof.
  unfold compareDiagnosticLoc, hasUri.
  destruct (uri a) as [ua|], (uri b) as [ub|], (uri c) as [uc|];
    try discriminate; intros _ _; try apply comparePositions_trans.
  destruct (jsstring_eqb_spec ua ub) as [->|Hab].
  - destruct (jsstring_eqb_spec ub uc) as [->|Hbc].
    + apply comparePositions_trans.
    + destruct (JsString.ltb ub uc); lia.
  - destruct (JsString.ltb ua ub) eqn:Lab; [|lia].
    destruct (jsstring_eqb_spec ub uc) as [->|Hbc].
    + intros _ _. destruct (jsstring_eqb_spec ua uc); [congruence|].
      rewrite Lab; lia.
    + destruct (JsString.ltb ub uc) eqn:Lbc; [|lia].
      intros _ _. pose proof (jsstring_ltb_trans _ _ _ Lab Lbc) as Lac.
      destruct (jsstring_eqb_spec ua uc) as [->|Hac].
      * rewrite jsstring_ltb_irrefl in Lac; discriminate.
      * rewrite Lac; lia.
Qed.

(** The two marker types of the extension are uniform: a [vscode.Diagnostic]
    never has a [uri], a [DiagnosticWithUri] always has one. *)
Lemma uniformUri_Diagnostic (l : list Diagnostic) : uniformUri l.
Proof. intros s t _ _; reflexivity. Qed.

Lemma uniformUri_DiagnosticWithUri (l : list DiagnosticWithUri) : uniformUri l.
Proof. intros s t _ _; reflexivity. Qed.

(** C4 (amended). The comparator is reflexive ([compare(a,a) = 0]), yields
    one of -1, 0, 1, and swapping its arguments negates the result, for all
    locations, with or without a document identifier. Two locations that
    both carry an identifier compare equal exactly when identifier and start
    position agree. Transitivity holds among locations that all carry a
    document identifier or all lack one. *)
Theorem compareDiagnosticLoc_order :
  (forall a, compareDiagnosticLoc a a = 0%Z) /\
  (forall a b, compareDiagnosticLoc b a = (- compareDiagnosticLoc a b)%Z) /\
  (forall a b, compareDiagnosticLoc a b = (-1)%Z \/ compareDiagnosticLoc a b = 0%Z
               \/ compareDiagnosticLoc a b = 1%Z) /\
  (forall a b ua ub, uri a = Some ua -> uri b = Some ub ->
     (compareDiagnosticLoc a b = 0%Z <-> ua = ub /\ start (range a) = start (range b))) /\
  (forall a b c, hasUri a = hasUri b -> hasUri b = hasUri c ->
     (compareDiagnosticLoc a b <= 0)%Z -> (compareDiagnosticLoc b c <= 0)%Z ->
     (compareDiagnosticLoc a c <= 0)%Z).
Proof.
  split; [exact compareDiagnosticLoc_refl|].
  split; [exact compareDiagnosticLoc_antisym|].
  split; [|split; [|exact compareDiagnosticLoc_trans]].
  - intros a b; unfold compareDiagnosticLoc, comparePositions.
    destruct (uri a), (uri b);
      repeat match goal with |- context [if ?c then _ else _] => destruct c end; auto.
  - intros a b ua ub Ha Hb; unfold compareDiagnosticLoc; rewrite Ha, Hb.
    destruct (jsstring_eqb_spec ua ub) as [->|Hne].
    + rewrite comparePositions_zero; tauto.
    + destruct (JsString.ltb ua ub); split; try lia; tauto.
Qed.

Lemma compareDiagnosticLoc_order_witness :
  (compareDiagnosticLoc (inDoc "a" 7 0) (inDoc "b" 0 3) <= 0)%Z.
Proof.
  apply (proj2 (proj2 (proj2 (proj2 compareDiagnosticLoc_order)))
           (inDoc "a" 7 0) (inDoc "a" 9 2) (inDoc "b" 0 3));
    vm_compute; congruence.
Defined.

(** C4, as stated, fails: with the middle location lacking a document
    identifier, [a < b] and [b < c] by position while [a > c] by identifier. *)
Lemma compareDiagnosticLoc_not_transitive :
  let a := inDoc "b" 1 0 in
  let b := at_ 2 0 in
  let c := inDoc "a" 3 0 in
  compareDiagnosticLoc a b = (-1)%Z /\
  compareDiagnosticLoc b c = (-1)%Z /\
  compareDiagnosticLoc a c = 1%Z.
Proof. vm_compute; auto. Qed.

(** In its null branch [getCloserPrev] never returns a marker that
    compares equal to the cursor. *)
Lemma getCloserPrev_null_strict {D : Type} `{Located D} (cursor : DiagnosticLoc) (marker : D) :
  compareDiagnosticLoc (loc marker) cursor = 0%Z ->
  getCloserPrev cursor marker None = None.
Proof. intros E; unfold getCloserPrev; rewrite E; reflexivity. Qed.

(** C1. With no best so far, [getCloserPrev] rejects a marker that starts
    exactly at the cursor, although the marker is [<=] the cursor under the
    comparator; once a best exists the same marker is accepted. *)
Theorem getCloserPrev_null_excludes_cursor :
  let cursor := {| range := emptyRangeAt (pos 3 0); uri := None |} in
  let marker := markerAt 3 0 Error None in
  let earlier := markerAt 1 0 Error None in
  compareDiagnosticLoc (loc marker) cursor = 0%Z /\
  getCloserPrev cursor marker None = None /\
  getCloserPrev cursor marker (Some earlier) = Some marker.
Proof. vm_compute; auto. Qed.

(** ** Folding [getCloserNext] *)

Section FoldNext.
Context {D : Type} `{Located D}.
Variable C : DiagnosticLoc.

Lemma foldNext_snoc (S : list D) (x : D) :
  foldNext C (S ++ [x]) = getCloserNext C x (foldNext C S).
Proof. unfold foldNext; rewrite fold_left_app; reflexivity. Qed.

Lemma foldNext_none (S : list D) :
  foldNext C S = None <->
  forall s, In s S -> (compareDiagnosticLoc (loc s) C < 0)%Z.
Proof.
  induction S as [|x S IH] using rev_ind.
  - split; [intros _ s []|reflexivity].
  - rewrite foldNext_snoc. unfold getCloserNext.
    destruct (foldNext C S) as [r|] eqn:E.
    + split.
      * destruct (_ && _); discriminate.
      * intros Hall. destruct IH as [_ IH].
        discriminate IH. intros s Hs; apply Hall, in_or_app; auto.
    + destruct (Z.geb_spec (compareDiagnosticLoc (loc x) C) 0) as [Hge|Hlt].
      * split; [discriminate|].
        intros Hall. assert (Hx : In x (S ++ [x])) by (apply in_or_app; simpl; auto).
        specialize (Hall x Hx). lia.
      * split; [|reflexivity]. intros _ s Hs.
        apply in_app_or in Hs as [Hs|[<-|[]]]; [|lia].
        apply IH; auto.
Qed.

Lemma uniformUri_init (S : list D) (x : D) : uniformUri (S ++ [x]) -> uniformUri S.
Proof. intros U s t Hs Ht; apply U; apply in_or_app; auto. Qed.

Lemma foldNext_least (S : list D) :
  uniformUri S -> forall r, foldNext C S = Some r -> isMinAtOrAfter C S r.
Proof.
  induction S as [|x S IH] using rev_ind; [discriminate|].
  intros U r. specialize (IH (uniformUri_init S x U)).
  assert (Hx : In x (S ++ [x])) by (apply in_or_app; simpl; auto).
  assert (HS : forall s, In s S -> In s (S ++ [x])) by (intros; apply in_or_app; auto).
  rewrite foldNext_snoc. unfold getCloserNext.
  destruct (foldNext C S) as [r0|] eqn:E.
  - destruct (IH r0 eq_refl) as (Hin & Hge & Hmin).
    destruct (Z.geb_spec (compareDiagnosticLoc (loc x) C) 0) as [Hxge|Hxlt]; simpl.
    + destruct (Z.gtb_spec (compareDiagnosticLoc (loc r0) (loc x)) 0) as [Hgt|Hle];
        intros [= <-].
      * split; [auto|split; [lia|]].
        intros s Hs Hsge. apply in_app_or in Hs as [Hs|[<-|[]]].
        -- apply compareDiagnosticLoc_trans with (b := loc r0); auto.
           rewrite (compareDiagnosticLoc_antisym (loc r0) (loc x)); lia.
        -- rewrite compareDiagnosticLoc_refl; lia.
      * split; [auto|split; [auto|]].
        intros s Hs Hsge. apply in_app_or in Hs as [Hs|[<-|[]]]; auto.
    + intros [= <-]. split; [auto|split; [auto|]].
      intros s Hs Hsge. apply in_app_or in Hs as [Hs|[<-|[]]]; [auto|lia].
  - destruct (Z.geb_spec (compareDiagnosticLoc (loc x) C) 0) as [Hxge|Hxlt];
      [|discriminate].
    intros [= <-]. split; [auto|split; [lia|]].
    intros s Hs Hsge. apply in_app_or in Hs as [Hs|[<-|[]]].
    + pose proof (proj1 (foldNext_none S) E s Hs); lia.
    + rewrite compareDiagnosticLoc_refl; lia.
Qed.

End FoldNext.

(** At both call sites the candidates are uniform, and the fold finds a
    least marker at or after the cursor. *)
Lemma foldNext_least_in_file (C : DiagnosticLoc) (S : list Diagnostic) (r : Diagnostic) :
  foldNext C S = Some r -> isMinAtOrAfter C S r.
Proof. apply foldNext_least, uniformUri_Diagnostic. Qed.

Lemma foldNext_least_in_files (C : DiagnosticLoc) (S : list DiagnosticWithUri)
    (r : DiagnosticWithUri) :
  foldNext C S = Some r -> isMinAtOrAfter C S r.
Proof. apply foldNext_least, uniformUri_DiagnosticWithUri. Qed.

Lemma foldNext_tight_uniform {D : Type} `{Located D} (C : DiagnosticLoc) (S : list D) :
  uniformUri S -> foldNextTight C S.
Proof.
  intros U. split; [apply foldNext_none|split].
  - intros (s & Hs & Hge). destruct (foldNext C S) as [r|] eqn:E; [eauto|].
    pose proof (proj1 (foldNext_none C S) E s Hs). lia.
  - intros r Hr. pose proof (foldNext_least C S U r Hr) as Hmin.
    split; [exact Hmin|].
    intros m (Hm & Hmge & Hmmin). destruct Hmin as (Hin & Hge & Hrmin).
    specialize (Hrmin m Hm Hmge). specialize (Hmmin r Hin Hge).
    rewrite (compareDiagnosticLoc_antisym (loc r) (loc m)) in Hmmin. lia.
Qed.

(** C2. For every cursor location and every list of candidate markers, be
    they the [vscode.Diagnostic]s of one document or the
    [DiagnosticWithUri]s of all documents, folding [getCloserNext] from
    [null] yields [null] exactly when no marker of the list is at or after
    the cursor, and otherwise yields a marker of the list that is a least
    element of the markers at or after the cursor and compares equal to
    every such least element. *)
Theorem foldNext_minimum :
  (forall (C : DiagnosticLoc) (S : list Diagnostic), foldNextTight C S) /\
  (forall (C : DiagnosticLoc) (S : list DiagnosticWithUri), foldNextTight C S).
Proof.
  split; intros C S; apply foldNext_tight_uniform.
  - apply uniformUri_Diagnostic.
  - apply uniformUri_DiagnosticWithUri.
Qed.

Lemma foldNext_minimum_witness :
  let C := at_ 7 0 in
  let S := [markerAt 5 0 Error None; markerAt 10 0 Warning None;
            markerAt 1 0 Error None; markerAt 8 0 Error None] in
  isMinAtOrAfter C S (markerAt 8 0 Error None).
Proof.
  intros C S.
  exact (proj1 (proj2 (proj2 (proj1 foldNext_minimum C S))
                  (markerAt 8 0 Error None) eq_refl)).
Defined.

(** The generic selector is typed over any [D extends DiagnosticLoc]; on a
    list that mixes locations with and without a document identifier,
    which the commands never build, the fold need not find the least
    element. *)
Lemma foldNext_mixed_not_minimum :
  let C := at_ 0 0 in
  let n := at_ 1 0 in
  let m := inDoc "a" 1 0 in
  let d := inDoc "b" 0 0 in
  isMinAtOrAfter C [n; m; d] m /\
  foldNext C [n; m; d] = Some d /\
  compareDiagnosticLoc d m = 1%Z.
Proof.
  intros C n m d. split; [|split; reflexivity].
  split; [simpl; auto|split; [vm_compute; congruence|]].
  intros s Hs _; simpl in Hs.
  destruct Hs as [<-|[<-|[<-|[]]]]; vm_compute; congruence.
Qed.

(** ** [globToRe]: from pattern text to syntax tree *)

Lemma rePattern_cons (c : char16) (p : jsstring) :
  rePattern (c :: p) = expansion c ++ rePattern p.
Proof.
  unfold rePattern, escapeSpecials, expandStars, expansion; simpl.
  rewrite flat_map_app.
  destruct (isEscaped c) eqn:E; simpl.
  - destruct (N.eqb_spec c c_star) as [->|_]; [discriminate E|reflexivity].
  - rewrite app_nil_r; destruct (N.eqb c c_star); reflexivity.
Qed.

Lemma eqb_of_mem (c : char16) (l : list char16) (x : char16) :
  existsb (N.eqb c) l = false -> In x l -> N.eqb c x = false.
Proof.
  induction l as [|y l IH]; simpl; [tauto|].
  intros Hf [<-|Hin]; apply orb_false_iff in Hf; tauto.
Qed.

Lemma syntax_escaped_or_kept (c : char16) :
  isSyntaxCharacter c = true ->
  isEscaped c = true \/ c = c_star \/ c = c_bar.
Proof.
  unfold isSyntaxCharacter; simpl. rewrite !orb_true_iff.
  intros Hc.
  repeat match goal with
         | H : _ \/ _ |- _ => destruct H as [H|H]
         | H : N.eqb _ _ = true |- _ => apply N.eqb_eq in H; subst c
         end; auto; discriminate.
Qed.

Lemma tokenize_expansion (c : char16) (rest : jsstring) :
  tokenize (expansion c ++ rest) = option_map (app (tokensOf c)) (tokenize rest).
Proof.
  unfold expansion, tokensOf.
  destruct (isEscaped c) eqn:E.
  - destruct (N.eqb_spec c c_star) as [->|_]; [discriminate E|].
    destruct (N.eqb_spec c c_bar) as [->|_]; [discriminate E|].
    simpl. rewrite E, orb_true_r. reflexivity.
  - destruct (N.eqb_spec c c_star) as [->|Hstar].
    + simpl. destruct (tokenize rest); reflexivity.
    + destruct (N.eqb_spec c c_bar) as [->|Hbar]; [reflexivity|].
      assert (Hsyn : isSyntaxCharacter c = false).
      { destruct (isSyntaxCharacter c) eqn:S; auto.
        destruct (syntax_escaped_or_kept c S) as [?|[?|?]]; congruence. }
      pose proof (eqb_of_mem c _ c_backslash E) as H1.
      pose proof (eqb_of_mem c _ c_caret E) as H2.
      pose proof (eqb_of_mem c _ c_dollar E) as H3.
      pose proof (eqb_of_mem c _ c_dot E) as H4.
      simpl app. cbn [tokenize].
      rewrite H1, H2, H3, H4, Hsyn by (simpl; auto 20).
      destruct (N.eqb_spec c c_bar); [contradiction|].
      destruct (N.eqb_spec c c_star); [contradiction|].
      reflexivity.
Qed.

Lemma tokenize_rePattern (p : jsstring) :
  tokenize (rePattern p ++ str "$") = Some (flat_map tokensOf p ++ [KDollar]).
Proof.
  induction p as [|c p IH]; [reflexivity|].
  rewrite rePattern_cons, <- app_assoc, tokenize_expansion, IH.
  cbn [option_map flat_map]. rewrite app_assoc. reflexivity.
Qed.

Lemma compileAlts_nonempty (p : jsstring) : compileAlts p <> [].
Proof.
  induction p as [|c p IH]; simpl; [discriminate|].
  destruct (N.eqb c c_bar); [discriminate|].
  destruct (compileAlts p); [contradiction|discriminate].
Qed.

Lemma parseTokens_glob (p : jsstring) :
  parseTokens (flat_map tokensOf p ++ [KDollar]) = Some (compileAlts p).
Proof.
  induction p as [|c p IH]; [reflexivity|].
  pose proof (compileAlts_nonempty p) as Hne.
  cbn [flat_map compileAlts]. unfold tokensOf at 1, termOf.
  destruct (N.eqb c c_star) eqn:Hstar.
  - destruct (N.eqb_spec c c_bar) as [->|_]; [discriminate Hstar|].
    cbn [app parseTokens]. rewrite IH.
    destruct (compileAlts p); [contradiction|reflexivity].
  - destruct (N.eqb c c_bar); cbn [app parseTokens]; [rewrite IH; reflexivity|].
    assert (Hhd : match flat_map tokensOf p ++ [KDollar] with
                  | KStar :: _ => False
                  | _ => True
                  end).
    { destruct p as [|c' p']; simpl; auto.
      unfold tokensOf; destruct (N.eqb c' c_star); simpl; auto.
      destruct (N.eqb c' c_bar); simpl; auto. }
    destruct (flat_map tokensOf p ++ [KDollar]) as [|[| | | |a] ts] eqn:Ets;
      try contradiction; rewrite IH;
      destruct (compileAlts p); try contradiction; reflexivity.
Qed.

Lemma globToRe_compileGlob (p : jsstring) : globToRe p = Some (compileGlob p).
Proof.
  unfold globToRe, parsePattern.
  change (str "^" ++ rePattern p ++ str "$") with (c_caret :: (rePattern p ++ str "$")).
  cbn [tokenize]. change (N.eqb c_caret c_backslash) with false.
  change (N.eqb c_caret c_bar) with false. change (N.eqb c_caret c_caret) with true.
  cbv iota. rewrite tokenize_rePattern. cbn [option_map parseTokens].
  rewrite parseTokens_glob. unfold compileGlob, addTerm.
  pose proof (compileAlts_nonempty p).
  destruct (compileAlts p); [contradiction|reflexivity].
Qed.

(** ** [globToRe]: what the compiled expression matches *)

Lemma matchTerms_star_cons (a : Atom) (ts : Alternative) (b : bool)
    (c : char16) (rest : jsstring) :
  matchTerms (TStar a :: ts) b (c :: rest)
  = (atomMatches a c && matchTerms (TStar a :: ts) false rest)
    || matchTerms ts b (c :: rest).
Proof. reflexivity. Qed.

Lemma matchTerms_star_nil (a : Atom) (ts : Alternative) (b : bool) :
  matchTerms (TStar a :: ts) b [] = matchTerms ts b [].
Proof. reflexivity. Qed.

Lemma glob_star_cons (wild : char16 -> bool) (p : jsstring) (x : char16) (rest : jsstring) :
  globMatchWith wild (c_star :: p) (x :: rest)
  = globMatchWith wild p (x :: rest)
    || (wild x && globMatchWith wild (c_star :: p) rest).
Proof. reflexivity. Qed.

Lemma glob_star_nil (wild : char16 -> bool) (p : jsstring) :
  globMatchWith wild (c_star :: p) [] = globMatchWith wild p [] || false.
Proof. reflexivity. Qed.

Lemma glob_char (wild : char16 -> bool) (c : char16) (p s : jsstring) :
  N.eqb c c_star = false ->
  globMatchWith wild (c :: p) s
  = match s with
    | x :: rest => N.eqb c x && globMatchWith wild p rest
    | [] => false
    end.
Proof. intros Hc; cbn [globMatchWith]; rewrite Hc; reflexivity. Qed.

(** One alternative followed by [$] is the glob, matched to the end. *)
Lemma matchTerms_glob (p : jsstring) :
  forall b s, matchTerms (map termOf p ++ [TEol]) b s = globMatch p s.
Proof.
  unfold globMatch.
  induction p as [|c p IHp]; intros b s.
  - destruct s; reflexivity.
  - cbn [map app]. unfold termOf at 1.
    destruct (N.eqb_spec c c_star) as [->|Hc].
    + revert b; induction s as [|x rest IHs]; intros b.
      * rewrite matchTerms_star_nil, glob_star_nil, orb_false_r. apply IHp.
      * rewrite matchTerms_star_cons, glob_star_cons, IHs, IHp.
        apply orb_comm.
    + rewrite glob_char by (apply N.eqb_neq; exact Hc).
      destruct s as [|x rest]; [reflexivity|].
      cbn [matchTerms atomMatches]. rewrite IHp. reflexivity.
Qed.

Lemma compileAlts_nobar (p : jsstring) :
  hasBar p = false -> compileAlts p = [map termOf p ++ [TEol]].
Proof.
  unfold hasBar. induction p as [|c p IH]; [reflexivity|].
  cbn [existsb compileAlts map]. intros Hb; apply orb_false_iff in Hb as [Hc Hp].
  rewrite N.eqb_sym, Hc, (IH Hp). reflexivity.
Qed.

Lemma search_bol (ts : Alternative) (alts : RegExp) (s : jsstring) :
  search ((TBol :: ts) :: alts) false s = search alts false s.
Proof.
  induction s as [|x rest IH]; cbn [search matchAt existsb matchTerms andb orb];
    [reflexivity|]. rewrite IH. reflexivity.
Qed.

Lemma search_nil (b : bool) (s : jsstring) : search [] b s = false.
Proof. revert b; induction s as [|x rest IH]; intros b; simpl; auto. Qed.

Lemma matches_single (ts : Alternative) (s : jsstring) :
  matches s [TBol :: ts] = matchTerms ts true s.
Proof.
  unfold matches. destruct s as [|x rest];
    cbn [search matchAt existsb matchTerms andb]; rewrite ?orb_false_r; auto.
  rewrite search_bol, search_nil, orb_false_r. reflexivity.
Qed.

Lemma accepts_cons (c : char16) (alt : jsstring) (ts : Alternative) :
  accepts alt ts -> accepts (c :: alt) (termOf c :: ts).
Proof.
  unfold accepts, globMatch. intros HR s. unfold termOf.
  destruct (N.eqb_spec c c_star) as [->|Hc].
  - induction s as [|x rest IHs]; intros b.
    + rewrite glob_star_nil, orb_false_r, matchTerms_star_nil. apply HR.
    + rewrite glob_star_cons, matchTerms_star_cons.
      intros Hm; apply orb_true_iff in Hm as [Hm|Hm]; apply orb_true_iff.
      * right; apply HR; exact Hm.
      * apply andb_true_iff in Hm as [Hx Hm]. left.
        cbn [atomMatches]; rewrite Hx; apply IHs; exact Hm.
  - intros b. rewrite glob_char by (apply N.eqb_neq; exact Hc).
    destruct s as [|x rest]; [discriminate|].
    intros Hm; apply andb_true_iff in Hm as [Hx Hm].
    cbn [matchTerms atomMatches]. rewrite Hx. apply HR; exact Hm.
Qed.

Lemma accepts_alternatives (p : jsstring) :
  Forall2 accepts (splitBars p) (compileAlts p).
Proof.
  induction p as [|c p IH]; cbn [splitBars compileAlts].
  - constructor; [|constructor]. intros [|x s] b; [reflexivity|discriminate].
  - destruct (N.eqb c c_bar).
    + constructor; [|exact IH]. intros s b _; reflexivity.
    + pose proof (compileAlts_nonempty p) as Hne.
      inversion IH as [Ha Ht|alt ts alts tss Hhd Htl Ha Ht];
        [symmetry in Ht; contradiction|].
      constructor; [apply accepts_cons; exact Hhd|exact Htl].
Qed.

Lemma Forall2_pick {A B : Type} (R : A -> B -> Prop) (l : list A) (l' : list B) :
  Forall2 R l l' -> forall a, In a l -> exists b, In b l' /\ R a b.
Proof.
  induction 1 as [|a0 b0 l l' Hab Hrest IH]; intros a []; subst.
  - exists b0; simpl; auto.
  - destruct (IH a H) as (b & Hb & Hr); exists b; simpl; auto.
Qed.

Lemma matches_alternative (p alt s : jsstring) :
  In alt (splitBars p) -> globMatch alt s = true -> matches s (compileGlob p) = true.
Proof.
  intros Hin Hm.
  destruct (Forall2_pick _ _ _ (accepts_alternatives p) alt Hin) as (ts & Hts & Hacc).
  unfold compileGlob.
  destruct (compileAlts p) as [|t0 tss]; [destruct Hts|].
  assert (Hat : matchAt ((TBol :: t0) :: tss) true s = true).
  { unfold matchAt; cbn [existsb matchTerms andb]. apply orb_true_iff.
    destruct Hts as [->|Hts].
    - left; apply Hacc; exact Hm.
    - right; apply existsb_exists; exists ts; split; [exact Hts|apply Hacc; exact Hm]. }
  unfold matches. destruct s; cbn [search]; rewrite Hat; reflexivity.
Qed.

Lemma glob_star_zero (wild : char16 -> bool) (p u : jsstring) :
  globMatchWith wild p u = true -> globMatchWith wild (c_star :: p) u = true.
Proof.
  intros Hm. destruct u as [|x rest].
  - rewrite glob_star_nil, Hm; reflexivity.
  - rewrite glob_star_cons, Hm; reflexivity.
Qed.

Lemma accepted_cons (c : char16) (alt : jsstring) (ts : Alternative) :
  accepted alt ts -> accepted (c :: alt) (termOf c :: ts).
Proof.
  unfold accepted, globMatch. intros HR s. unfold termOf.
  destruct (N.eqb_spec c c_star) as [->|Hc].
  - induction s as [|x rest IHs]; intros b.
    + rewrite matchTerms_star_nil. intros Hm.
      destruct (HR _ _ Hm) as (u & post & E & Hu).
      exists u, post. split; [exact E|apply glob_star_zero; exact Hu].
    + rewrite matchTerms_star_cons.
      intros Hm; apply orb_true_iff in Hm as [Hm|Hm].
      * apply andb_true_iff in Hm as [Hx Hm].
        destruct (IHs false Hm) as (u & post & -> & Hu).
        exists (x :: u), post. split; [reflexivity|].
        rewrite glob_star_cons. cbn [atomMatches] in Hx. rewrite Hx, Hu.
        apply orb_true_r.
      * destruct (HR _ _ Hm) as (u & post & E & Hu).
        exists u, post. split; [exact E|apply glob_star_zero; exact Hu].
  - intros b. cbn [matchTerms]. destruct s as [|x rest]; [discriminate|].
    intros Hm; apply andb_true_iff in Hm as [Hx Hm].
    destruct (HR _ _ Hm) as (u & post & -> & Hu).
    exists (x :: u), post. split; [reflexivity|].
    rewrite glob_char by (apply N.eqb_neq; exact Hc).
    cbn [atomMatches] in Hx. rewrite Hx, Hu. reflexivity.
Qed.

Lemma accepted_alternatives (p : jsstring) :
  Forall2 accepted (splitBars p) (compileAlts p).
Proof.
  induction p as [|c p IH]; cbn [splitBars compileAlts].
  - constructor; [|constructor]. intros [|x s] b; [|discriminate].
    intros _. exists [], []. split; reflexivity.
  - destruct (N.eqb c c_bar).
    + constructor; [|exact IH]. intros s b _. exists [], s. split; reflexivity.
    + pose proof (compileAlts_nonempty p) as Hne.
      inversion IH as [Ha Ht|alt ts alts tss Hhd Htl Ha Ht];
        [symmetry in Ht; contradiction|].
      constructor; [apply accepted_cons; exact Hhd|exact Htl].
Qed.

Lemma Forall2_pick_right {A B : Type} (R : A -> B -> Prop) (l : list A) (l' : list B) :
  Forall2 R l l' -> forall b, In b l' -> exists a, In a l /\ R a b.
Proof.
  induction 1 as [|a0 b0 l l' Hab Hrest IH]; intros b []; subst.
  - exists a0; simpl; auto.
  - destruct (IH b H) as (a & Ha & Hr); exists a; simpl; auto.
Qed.

Lemma search_found (re : RegExp) (b : bool) (s : jsstring) :
  search re b s = true ->
  exists pre rest b', s = pre ++ rest /\ matchAt re b' rest = true.
Proof.
  revert b; induction s as [|x s IH]; intros b; cbn [search].
  - rewrite orb_false_r. intros Hm. exists [], [], b. auto.
  - intros Hm; apply orb_true_iff in Hm as [Hm|Hm].
    + exists [], (x :: s), b. auto.
    + destruct (IH false Hm) as (pre & rest & b' & -> & Hat).
      exists (x :: pre), rest, b'. auto.
Qed.

Lemma matches_part (p s : jsstring) :
  matches s (compileGlob p) = true ->
  exists alt pre u post,
    In alt (splitBars p) /\ s = pre ++ u ++ post /\ globMatch alt u = true.
Proof.
  unfold matches. intros Hm.
  destruct (search_found _ _ _ Hm) as (pre & rest & b & -> & Hat).
  assert (Hts : exists ts, In ts (compileAlts p) /\ matchTerms ts b rest = true).
  { unfold compileGlob, matchAt in Hat.
    destruct (compileAlts p) as [|t0 tss]; [discriminate|].
    cbn [existsb matchTerms] in Hat. apply orb_true_iff in Hat as [Hat|Hat].
    - apply andb_true_iff in Hat as [_ Hat]. exists t0; simpl; auto.
    - apply existsb_exists in Hat as (ts & Hin & Hat). exists ts; simpl; auto. }
  destruct Hts as (ts & Hin & Hts).
  destruct (Forall2_pick_right _ _ _ (accepted_alternatives p) ts Hin) as (alt & Halt & Hacc).
  destruct (Hacc _ _ Hts) as (u & post & -> & Hu).
  exists alt, pre, u, post. auto.
Qed.

(** On a candidate without line terminator, [.] accepts every character. *)
Lemma globMatch_noLineTerminator (p s : jsstring) :
  noLineTerminator s = true -> globMatch p s = specGlobMatch p s.
Proof.
  unfold globMatch, specGlobMatch, noLineTerminator.
  revert s; induction p as [|c p IHp]; intros s Hs; [reflexivity|].
  destruct (N.eqb_spec c c_star) as [->|Hc].
  - induction s as [|x rest IHs].
    + rewrite !glob_star_nil, IHp by exact Hs. reflexivity.
    + cbn [forallb] in Hs. apply andb_true_iff in Hs as [Hx Hrest].
      rewrite !glob_star_cons, IHs by exact Hrest.
      rewrite IHp by (cbn [forallb]; rewrite Hx, Hrest; reflexivity).
      rewrite Hx. reflexivity.
  - rewrite !glob_char by (apply N.eqb_neq; exact Hc).
    destruct s as [|x rest]; [reflexivity|].
    cbn [forallb] in Hs. apply andb_true_iff in Hs as [_ Hrest].
    rewrite IHp by exact Hrest. reflexivity.
Qed.

Lemma globMatch_specGlobMatch (p s : jsstring) :
  globMatch p s = true -> specGlobMatch p s = true.
Proof.
  unfold globMatch, specGlobMatch.
  revert s; induction p as [|c p IHp]; intros s; [auto|].
  destruct (N.eqb_spec c c_star) as [->|Hc].
  - induction s as [|x rest IHs].
    + rewrite !glob_star_nil, !orb_false_r. apply IHp.
    + rewrite !glob_star_cons. intros Hm; apply orb_true_iff in Hm as [Hm|Hm].
      * rewrite (IHp _ Hm). reflexivity.
      * apply andb_true_iff in Hm as [_ Hm]. rewrite (IHs Hm). apply orb_true_r.
  - rewrite !glob_char by (apply N.eqb_neq; exact Hc).
    destruct s as [|x rest]; [auto|].
    intros Hm; apply andb_true_iff in Hm as [Hx Hm].
    rewrite Hx, (IHp _ Hm). reflexivity.
Qed.

(** C6 (amended). [globToRe] always yields a RegExp. On a candidate that
    holds no line terminator: a pattern without [|] matches exactly when
    the pattern agrees with the whole candidate, [*] spanning zero or more
    characters and every other character standing for itself; and a [|]
    is not literal but separates alternative patterns, a candidate that
    one of them agrees with as a whole being matched. On any candidate, a
    match requires that one of the alternatives agrees with some part of
    the candidate. *)
Theorem globToRe_matches (p s : jsstring) :
  (noLineTerminator s = true ->
   (hasBar p = false ->
    option_map (matches s) (globToRe p) = Some (specGlobMatch p s)) /\
   (forall alt, In alt (splitBars p) -> specGlobMatch alt s = true ->
    option_map (matches s) (globToRe p) = Some true)) /\
  (option_map (matches s) (globToRe p) = Some true ->
   exists alt pre u post,
     In alt (splitBars p) /\ s = pre ++ u ++ post /\ specGlobMatch alt u = true).
Proof.
  rewrite globToRe_compileGlob; cbn [option_map]. split.
  - intros Hs. split.
    + intros Hb. unfold compileGlob. rewrite (compileAlts_nobar p Hb).
      rewrite matches_single, matchTerms_glob.
      rewrite (globMatch_noLineTerminator p s Hs). reflexivity.
    + intros alt Hin Hm. rewrite <- (globMatch_noLineTerminator alt s Hs) in Hm.
      rewrite (matches_alternative p alt s Hin Hm). reflexivity.
  - intros [= Hm]. destruct (matches_part p s Hm) as (alt & pre & u & post & Hin & E & Hu).
    exists alt, pre, u, post. split; [exact Hin|split; [exact E|]].
    apply globMatch_specGlobMatch; exact Hu.
Qed.

Lemma globToRe_matches_witness :
  option_map (matches (str "jsonc")) (globToRe (str "js*c")) = Some true
  /\ option_map (matches (str "eslint")) (globToRe (str "tsc|es*")) = Some true
  /\ exists alt pre u post,
       In alt (splitBars (str "tsc|es*")) /\ str "eslint" = pre ++ u ++ post /\
       specGlobMatch alt u = true.
Proof.
  split; [|split].
  - exact (proj1 (proj1 (globToRe_matches (str "js*c") (str "jsonc")) eq_refl) eq_refl).
  - refine (proj2 (proj1 (globToRe_matches (str "tsc|es*") (str "eslint")) eq_refl)
              (str "es*") _ eq_refl).
    right; left; reflexivity.
  - exact (proj2 (globToRe_matches (str "tsc|es*") (str "eslint")) eq_refl).
Defined.

(** C6, as stated, fails: the [|] of ["a|b"] separates two patterns, so the
    compiled expression matches the candidate ["a"], which the pattern
    with a literal [|] does not. *)
Lemma globToRe_bar_alternation :
  option_map (matches (str "a")) (globToRe (str "a|b")) = Some true /\
  option_map (matches (str "b")) (globToRe (str "a|b")) = Some true /\
  specGlobMatch (str "a|b") (str "a") = false /\
  specGlobMatch (str "a|b") (str "b") = false.
Proof. vm_compute; auto. Qed.

(** ** The marker filter *)

Section FilterProperties.
Context {D : Type} `{IsDiagnostic D}.

Lemma severitiesOf_object (props : list (jsstring * jsval)) :
  exists severities, severitiesOf (JObject props) = Some severities.
Proof.
  unfold severitiesOf; cbn [typeofObject getProp].
  destruct (lookup (str "severity") props); eauto.
  destruct (0 <? List.length (flatMapSeverities elems))%nat; eauto.
Qed.

Lemma filterDiagnostics_sources (ds : list D) (props : list (jsstring * jsval))
    (sources : list jsval) :
  getProp (JObject props) "source" = Some (JArray sources) ->
  filterDiagnostics ds (JObject props)
  = sourceLoop (keptBySeverity ds (JObject props)) sources.
Proof.
  intros Hsrc. unfold filterDiagnostics, keptBySeverity.
  destruct (severitiesOf_object props) as (sevs & ->).
  rewrite Hsrc. reflexivity.
Qed.

Lemma patternMatches_compiled (p : jsstring) (dg : D) :
  patternMatches p dg = sourceMatches (compileGlob p) dg.
Proof. unfold patternMatches; rewrite globToRe_compileGlob; reflexivity. Qed.

Lemma selectedBy_star (p : jsstring) (kept : list D) :
  isStar p = true -> selectedBy p kept = kept.
Proof.
  intros Hp; unfold selectedBy, patternSelects; rewrite Hp; cbn [orb].
  induction kept as [|d kept IH]; cbn [filter]; congruence.
Qed.

Lemma selectedBy_pattern (p : jsstring) (kept : list D) :
  isStar p = false ->
  selectedBy p kept = filter (sourceMatches (compileGlob p)) kept.
Proof.
  intros Hp; unfold selectedBy, patternSelects; rewrite Hp; cbn [orb].
  apply filter_ext; intros dg; apply patternMatches_compiled.
Qed.

(** One round of the loop. *)
Lemma sourceLoop_cons (kept : list D) (p : jsstring) (rest : list jsval) :
  sourceLoop kept (JString p :: rest)
  = if isStar p then Some kept
    else if (0 <? List.length (selectedBy p kept))%nat then Some (selectedBy p kept)
    else sourceLoop kept rest.
Proof.
  cbn [sourceLoop isString]. fold (isStar p).
  destruct (isStar p) eqn:Hp; [reflexivity|].
  rewrite globToRe_compileGlob, (selectedBy_pattern p kept Hp). reflexivity.
Qed.

Lemma length_pos_nonempty {A : Type} (l : list A) :
  (0 <? List.length l)%nat = negb (match l with [] => true | _ => false end).
Proof. destruct l; reflexivity. Qed.

Lemma sourceLoop_first (kept : list D) (p1 : jsstring) (rest : list jsval) :
  selectedBy p1 kept <> [] ->
  sourceLoop kept (JString p1 :: rest) = Some (selectedBy p1 kept).
Proof.
  intros Hne. rewrite sourceLoop_cons.
  destruct (isStar p1) eqn:Hp; [rewrite (selectedBy_star p1 kept Hp); reflexivity|].
  rewrite length_pos_nonempty. destruct (selectedBy p1 kept); [contradiction|reflexivity].
Qed.

Lemma sourceLoop_skip (kept : list D) (p : jsstring) (rest : list jsval) :
  selectedBy p kept = [] ->
  sourceLoop kept (JString p :: rest) = Some [] \/
  sourceLoop kept (JString p :: rest) = sourceLoop kept rest.
Proof.
  intros He. rewrite sourceLoop_cons.
  destruct (isStar p) eqn:Hp.
  - left. rewrite (selectedBy_star p kept Hp) in He. congruence.
  - right. rewrite He. reflexivity.
Qed.

Lemma sourceLoop_star (kept : list D) (before after : list jsstring) :
  (forall p, In p before -> selectedBy p kept = []) ->
  sourceLoop kept (map JString (before ++ str "*" :: after)) = Some kept.
Proof.
  induction before as [|p before IH]; intros Hnone.
  - cbn [app map]. rewrite sourceLoop_cons. reflexivity.
  - cbn [app map]. rewrite sourceLoop_cons.
    destruct (isStar p) eqn:Hp; [reflexivity|].
    rewrite (Hnone p (or_introl eq_refl)). cbn [List.length Nat.ltb Nat.leb].
    apply IH. intros q Hq; apply Hnone; right; exact Hq.
Qed.

Lemma sourceLoop_none (kept : list D) (patterns : list jsstring) :
  (forall p, In p patterns -> selectedBy p kept = []) ->
  sourceLoop kept (map JString patterns) = Some [].
Proof.
  induction patterns as [|p patterns IH]; intros Hnone; [reflexivity|].
  cbn [map].
  destruct (sourceLoop_skip kept p (map JString patterns) (Hnone p (or_introl eq_refl)))
    as [->| ->]; [reflexivity|].
  apply IH. intros q Hq; apply Hnone; right; exact Hq.
Qed.

End FilterProperties.

(** Every entry of a [severity] array adds one member to the set, so the
    guard on [argSeverities.length] only catches the empty array; entries
    that are no severity name add [undefined], and a set of nothing else
    keeps no marker. *)
Lemma flatMapSeverities_unrecognised (l : list jsval) :
  (forall s, In s l -> severityOfName s = ReturnsUndefined) ->
  flatMapSeverities l = map (fun _ => None) l.
Proof.
  induction l as [|s l IH]; intros Hl; [reflexivity|].
  unfold flatMapSeverities in *; cbn [flat_map map].
  rewrite (Hl s (or_introl eq_refl)), IH by (intros; apply Hl; right; assumption).
  reflexivity.
Qed.

Lemma filterDiagnostics_all_unrecognised {D : Type} `{IsDiagnostic D}
    (ds : list D) (first : jsval) (rest : list jsval) :
  (forall s, In s (first :: rest) -> severityOfName s = ReturnsUndefined) ->
  filterDiagnostics ds (JObject [(str "severity", JArray (first :: rest))]) = Some [].
Proof.
  intros Hl. unfold filterDiagnostics, severitiesOf.
  cbn [typeofObject getProp lookup]. rewrite jsstring_eqb_refl.
  rewrite (flatMapSeverities_unrecognised _ Hl). cbn [map List.length Nat.ltb Nat.leb].
  change (getProp _ "source") with (Some JUndefined). cbn [truthy negb orb].
  f_equal. induction ds as [|d ds IH]; [reflexivity|].
  cbn [filter]. replace (setHas _ (severity d)) with false; [exact IH|].
  symmetry. unfold setHas. cbn [existsb]. clear.
  induction rest as [|s rest IH]; [reflexivity|exact IH].
Qed.

Lemma isFilterErrorOnly_array (first : jsval) (rest : list jsval) :
  isFilterErrorOnly (JObject [(str "severity", JArray (first :: rest))])
  = Some (isString first "error").
Proof.
  unfold isFilterErrorOnly. cbn [typeofObject negb getProp lookup].
  rewrite jsstring_eqb_refl. reflexivity.
Qed.

(** C3. With a non-empty [source] list [p1 :: ps]: if some marker kept by
    the severity stage has a defined source matching [p1], the result is
    exactly the kept markers that [p1] selects, so every marker of the
    result matches [p1] and none that only a later pattern matches appears
    (the wildcard ["*"] selects every marker; any other pattern selects the
    markers whose source is defined and matched by its expression); when
    the loop reaches a ["*"], no earlier pattern having selected a marker,
    the result is the whole severity-filtered list; and when no pattern
    selects any kept marker the result is empty. *)
Theorem filterDiagnostics_priority (D : Type) `{IsDiagnostic D}
    (ds : list D) (props : list (jsstring * jsval)) (p1 : jsstring) (ps : list jsstring) :
  getProp (JObject props) "source" = Some (JArray (map JString (p1 :: ps))) ->
  let args := JObject props in
  let kept := keptBySeverity ds args in
  (existsb (patternMatches p1) kept = true ->
     filterDiagnostics ds args = Some (selectedBy p1 kept) /\
     (forall dg, In dg (selectedBy p1 kept) ->
        In dg kept /\ patternSelects p1 dg = true /\
        ~ (patternSelects p1 dg = false /\ exists p, In p ps /\ patternSelects p dg = true)) /\
     (isStar p1 = false ->
      forall dg, In dg (selectedBy p1 kept) -> patternMatches p1 dg = true)) /\
  (forall before after, p1 :: ps = before ++ str "*" :: after ->
     (forall p, In p before -> selectedBy p kept = []) ->
     filterDiagnostics ds args = Some kept) /\
  ((forall p, In p (p1 :: ps) -> selectedBy p kept = []) ->
     filterDiagnostics ds args = Some []).
Proof.
  intros Hsrc args kept. subst args.
  rewrite (filterDiagnostics_sources ds props _ Hsrc). fold kept.
  split; [|split].
  - intros Hex. split.
    + cbn [map]. apply sourceLoop_first.
      apply existsb_exists in Hex as (dg & Hin & Hm).
      assert (Hsel : In dg (selectedBy p1 kept)).
      { apply filter_In; split; [exact Hin|].
        unfold patternSelects; rewrite Hm; apply orb_true_r. }
      intros He; rewrite He in Hsel; destruct Hsel.
    + split.
      * intros dg Hdg. apply filter_In in Hdg as [Hin Hsel].
        split; [exact Hin|split; [exact Hsel|]].
        intros [Hno _]; congruence.
      * intros Hstar dg Hdg. apply filter_In in Hdg as [_ Hsel].
        unfold patternSelects in Hsel. rewrite Hstar in Hsel. exact Hsel.
  - intros before after -> Hnone. apply sourceLoop_star; exact Hnone.
  - apply sourceLoop_none.
Qed.

Local Open Scope string_scope.

Lemma filterDiagnostics_priority_witness :
  let eslint := markerAt 1 0 Error (Some (str "eslint")) in
  let jsonc := markerAt 2 0 Error (Some (str "jsonc")) in
  filterDiagnostics [eslint; jsonc] (argsOf ["error"] ["jsonc"; "*"]) = Some [jsonc]
  /\ filterDiagnostics [eslint; jsonc] (argsOf ["error"] ["tsc"; "*"]) = Some [eslint; jsonc]
  /\ filterDiagnostics [eslint; jsonc] (argsOf ["error"] ["tsc"; "rust*"]) = Some [].
Proof.
  intros eslint jsonc. split; [|split].
  - exact (proj1 (proj1 (filterDiagnostics_priority Diagnostic [eslint; jsonc]
                    (propsOf ["error"] ["jsonc"; "*"]) (str "jsonc") [str "*"] eq_refl)
                  eq_refl)).
  - refine (proj1 (proj2 (filterDiagnostics_priority Diagnostic [eslint; jsonc]
                    (propsOf ["error"] ["tsc"; "*"]) (str "tsc") [str "*"] eq_refl))
              [str "tsc"] [] eq_refl _).
    intros p [<-|[]]. reflexivity.
  - refine (proj2 (proj2 (filterDiagnostics_priority Diagnostic [eslint; jsonc]
                    (propsOf ["error"] ["tsc"; "rust*"]) (str "tsc") [str "rust*"] eq_refl)) _).
    intros p [<-|[<-|[]]]; reflexivity.
Defined.

(** C8. A [severity] array holding only an unrecognised name does not fall
    back to the default filter: the callback of [flatMap] returns
    [undefined] for it, the severity set becomes [{undefined}], and every
    marker is dropped, where the default filter keeps errors and warnings. *)
Theorem filterDiagnostics_unrecognised_severity :
  let ds := [markerAt 1 0 Error None; markerAt 2 0 Warning None; markerAt 3 0 Hint None] in
  severitiesOf (severityArgs ["verbose"]) = Some [None] /\
  filterDiagnostics ds (severityArgs ["verbose"]) = Some [] /\
  filterDiagnostics ds (severityArgs []) = Some [markerAt 1 0 Error None; markerAt 2 0 Warning None] /\
  filterDiagnostics ds JUndefined = Some [markerAt 1 0 Error None; markerAt 2 0 Warning None].
Proof. vm_compute; auto. Qed.

(** C7. [isFilterErrorOnly] looks at the first entry of [severity] only:
    it answers [true] for [["error", "warning"]], the filter that keeps
    errors and warnings, just as it does for [["error"]]. *)
Theorem isFilterErrorOnly_first_entry :
  let ds := [markerAt 1 0 Error None; markerAt 2 0 Warning None] in
  isFilterErrorOnly (severityArgs ["error"; "warning"]) = Some true /\
  severitiesOf (severityArgs ["error"; "warning"]) = Some [Some Error; Some Warning] /\
  filterDiagnostics ds (severityArgs ["error"; "warning"]) = Some ds /\
  isFilterErrorOnly (severityArgs ["error"]) = Some true /\
  filterDiagnostics ds (severityArgs ["error"]) = Some [markerAt 1 0 Error None].
Proof. vm_compute; auto 10. Qed.

Local Close Scope string_scope.

(** ** Sorting *)

Section SortProperties.
Context {D : Type} `{Located D}.

Lemma insertSorted_perm (x : D) (l : list D) : Permutation (insertSorted x l) (x :: l).
Proof.
  induction l as [|y l IH]; cbn [insertSorted]; [reflexivity|].
  destruct (_ <=? 0)%Z; [reflexivity|].
  rewrite IH. apply perm_swap.
Qed.

Lemma sortDiagnostics_perm (l : list D) : Permutation (sortDiagnostics l) l.
Proof.
  induction l as [|x l IH]; cbn [sortDiagnostics fold_right]; [reflexivity|].
  fold (sortDiagnostics l). rewrite insertSorted_perm, IH. reflexivity.
Qed.

Lemma insertSorted_sorted (x : D) (l : list D) :
  uniformUri (x :: l) ->
  StronglySorted leLoc l -> StronglySorted leLoc (insertSorted x l).
Proof.
  intros U. induction l as [|y l IH]; intros Hs; cbn [insertSorted].
  - repeat constructor.
  - inversion Hs as [|y' l' Hl Hy]; subst.
    destruct (Z.leb_spec (compareDiagnosticLoc (loc x) (loc y)) 0) as [Hle|Hgt].
    + constructor; [exact Hs|]. constructor; [exact Hle|].
      rewrite Forall_forall in Hy |- *. intros z Hz.
      apply compareDiagnosticLoc_trans with (b := loc y); auto.
      * apply U; simpl; auto.
      * apply U; simpl; auto.
      * apply Hy; exact Hz.
    + constructor.
      * apply IH; [|exact Hl]. intros s t Hs' Ht'; apply U; simpl in *; tauto.
      * apply (Permutation_Forall (Permutation_sym (insertSorted_perm x l))).
        constructor; [|exact Hy]. unfold leLoc.
        rewrite (compareDiagnosticLoc_antisym (loc x) (loc y)); lia.
Qed.

Lemma sortDiagnostics_sorted (l : list D) :
  uniformUri l -> StronglySorted leLoc (sortDiagnostics l).
Proof.
  induction l as [|x l IH]; intros U; cbn [sortDiagnostics fold_right]; [constructor|].
  fold (sortDiagnostics l). apply insertSorted_sorted.
  - intros s t Hs Ht. apply U.
    + destruct Hs as [->|Hs]; [left; reflexivity|right].
      apply (Permutation_in _ (sortDiagnostics_perm l)); exact Hs.
    + destruct Ht as [->|Ht]; [left; reflexivity|right].
      apply (Permutation_in _ (sortDiagnostics_perm l)); exact Ht.
  - apply IH. intros s t Hs Ht; apply U; right; assumption.
Qed.

Lemma sorted_first_least (l : list D) (t : D) (rest : list D) :
  uniformUri l -> sortDiagnostics l = t :: rest ->
  forall d, In d l -> leLoc t d.
Proof.
  intros U E d Hd. pose proof (sortDiagnostics_sorted l U) as Hs. rewrite E in Hs.
  apply (Permutation_in _ (Permutation_sym (sortDiagnostics_perm l))) in Hd.
  rewrite E in Hd. inversion Hs as [|t' r' _ Hall]; subst.
  destruct Hd as [<-|Hd].
  - unfold leLoc; rewrite compareDiagnosticLoc_refl; lia.
  - rewrite Forall_forall in Hall; apply Hall; exact Hd.
Qed.

Lemma sorted_snoc (front : list D) (t : D) :
  StronglySorted leLoc (front ++ [t]) -> Forall (fun d => leLoc d t) front.
Proof.
  induction front as [|y front IH]; cbn [app]; intros Hs; [constructor|].
  inversion Hs as [|y' l' Hl Hy]; subst. constructor; [|apply IH; exact Hl].
  rewrite Forall_forall in Hy; apply Hy, in_or_app; simpl; auto.
Qed.

Lemma sorted_last_greatest (l : list D) (front : list D) (t : D) :
  uniformUri l -> sortDiagnostics l = front ++ [t] ->
  forall d, In d l -> leLoc d t.
Proof.
  intros U E d Hd. pose proof (sortDiagnostics_sorted l U) as Hs. rewrite E in Hs.
  apply (Permutation_in _ (Permutation_sym (sortDiagnostics_perm l))) in Hd.
  rewrite E in Hd. apply in_app_or in Hd as [Hd|[<-|[]]].
  - pose proof (sorted_snoc front t Hs) as Hall.
    rewrite Forall_forall in Hall; apply Hall; exact Hd.
  - unfold leLoc; rewrite compareDiagnosticLoc_refl; lia.
Qed.

Lemma sortDiagnostics_nonempty (l : list D) : l <> [] -> sortDiagnostics l <> [].
Proof.
  intros Hl E. pose proof (sortDiagnostics_perm l) as P. rewrite E in P.
  apply Permutation_nil in P. contradiction.
Qed.

Lemma wrapAround_next (l : list D) :
  l <> [] -> exists t rest, sortDiagnostics l = t :: rest /\ wrapAround DirNext l = Some t.
Proof.
  intros Hl. pose proof (sortDiagnostics_nonempty l Hl) as Hs.
  unfold wrapAround. destruct (sortDiagnostics l) as [|t rest]; [contradiction|].
  exists t, rest; auto.
Qed.

Lemma wrapAround_prev (l : list D) :
  l <> [] -> exists t front, sortDiagnostics l = front ++ [t] /\ wrapAround DirPrev l = Some t.
Proof.
  intros Hl. pose proof (sortDiagnostics_nonempty l Hl) as Hs.
  unfold wrapAround.
  destruct (exists_last Hs) as (front & t & E). rewrite E.
  exists t, front. split; [reflexivity|].
  rewrite length_app, Nat.add_sub. cbn [List.length].
  rewrite nth_error_app2 by lia. rewrite Nat.sub_diag. reflexivity.
Qed.

End SortProperties.

(** ** The navigation commands *)

Lemma isEqual_eq (p q : Position) : isEqual p q = true <-> p = q.
Proof.
  unfold isEqual; destruct p as [lp cp], q as [lq cq]; cbn [line character].
  rewrite andb_true_iff, !Nat.eqb_eq. split; [intros [-> ->]; reflexivity|].
  intros [= -> ->]; auto.
Qed.

Section CandidateProperties.
Context {D : Type} `{Located D}.

Lemma fold_left_skip {A : Type} (skip : D -> bool) (f : A -> D -> A) (l : list D) (a : A) :
  fold_left (fun acc d => if skip d then acc else f acc d) l a
  = fold_left f (filter (fun d => negb (skip d)) l) a.
Proof.
  revert a; induction l as [|d l IH]; intros a; cbn [fold_left filter]; [reflexivity|].
  destruct (skip d); cbn [negb fold_left]; apply IH.
Qed.

Lemma closestMarker_fold (lastPosition : option LastPosition) (direction : Direction)
    (cursor : DiagnosticLoc) (diagnostics : list D) :
  closestMarker lastPosition direction cursor diagnostics
  = foldDirection direction cursor (notSkipped lastPosition diagnostics).
Proof.
  unfold closestMarker, foldDirection, foldNext, foldPrev, notSkipped.
  destruct direction;
    rewrite <- (fold_left_skip (skipped lastPosition)); reflexivity.
Qed.

Lemma fold_left_pick (f : option D -> D -> option D) (l : list D) :
  (forall acc d, f acc d = acc \/ f acc d = Some d) ->
  forall a r, fold_left f l a = Some r -> a = Some r \/ In r l.
Proof.
  intros Hf. induction l as [|d l IH]; intros a r; cbn [fold_left]; [auto|].
  intros Hr. destruct (IH _ _ Hr) as [Ha|Hin]; [|right; right; exact Hin].
  destruct (Hf a d) as [E|E]; rewrite E in Ha; [auto|].
  injection Ha as ->; right; left; reflexivity.
Qed.

Lemma foldDirection_in (direction : Direction) (cursor : DiagnosticLoc)
    (S : list D) (r : D) :
  foldDirection direction cursor S = Some r -> In r S.
Proof.
  unfold foldDirection, foldNext, foldPrev. intros Hr.
  destruct direction;
    (apply fold_left_pick in Hr as [Hr|Hr]; [discriminate|exact Hr|]);
    intros acc d; [unfold getCloserNext|unfold getCloserPrev];
    destruct acc; repeat match goal with |- context [if ?c then _ else _] => destruct c end;
    auto.
Qed.

Lemma closestMarker_not_skipped (lastPosition : option LastPosition)
    (direction : Direction) (cursor : DiagnosticLoc) (diagnostics : list D) (r : D) :
  closestMarker lastPosition direction cursor diagnostics = Some r ->
  In r diagnostics /\ skipped lastPosition r = false.
Proof.
  rewrite closestMarker_fold. intros Hr. apply foldDirection_in in Hr.
  apply filter_In in Hr as [Hin Hs]. split; [exact Hin|].
  destruct (skipped lastPosition r); [discriminate|reflexivity].
Qed.

End CandidateProperties.

Lemma resetLastPosition_some (lp : option LastPosition) (editor : TextEditor)
    (l : LastPosition) :
  resetLastPosition lp editor = Some l ->
  lp = Some l /\ last_uri l = document_uri editor.
Proof.
  unfold resetLastPosition. destruct lp as [l0|]; [|discriminate].
  destruct (jsstring_eqb_spec (last_uri l0) (document_uri editor)) as [E|E];
    cbn [negb]; [|discriminate].
  intros [= <-]; auto.
Qed.

Lemma resetLastPosition_cases (lp : option LastPosition) (editor : TextEditor) :
  resetLastPosition lp editor = lp \/
  (exists l, lp = Some l /\ last_uri l <> document_uri editor
             /\ resetLastPosition lp editor = None).
Proof.
  unfold resetLastPosition. destruct lp as [l0|]; [|left; reflexivity].
  destruct (jsstring_eqb_spec (last_uri l0) (document_uri editor)) as [E|E];
    cbn [negb]; [left; reflexivity|right; eauto].
Qed.

Lemma alreadyThere_spec (lp : option LastPosition) (editor : TextEditor) (next : Diagnostic) :
  alreadyThere lp editor next = true <->
  exists l, lp = Some l /\ last_position l = start (diag_range next)
            /\ start (selection editor) = start (diag_range next).
Proof.
  unfold alreadyThere. destruct lp as [l|].
  - rewrite andb_true_iff, !isEqual_eq. split.
    + intros [H1 H2]; exists l; auto.
    + intros (l' & [= <-] & H1 & H2); auto.
  - split; [discriminate|intros (l & Hl & _); discriminate].
Qed.

Lemma filterDiagnostics_args_ok {D : Type} `{IsDiagnostic D} (ds out : list D) (args : jsval) :
  filterDiagnostics ds args = Some out -> exists b, isFilterErrorOnly args = Some b.
Proof.
  destruct args; try (intros _; eexists; reflexivity).
  - discriminate.
  - intros _. unfold isFilterErrorOnly; cbn [typeofObject negb getProp].
    destruct (lookup (str "severity") props) as [| | | | |[|first l]|]; eexists; reflexivity.
Qed.

Lemma selectInFile_moves (host : Host) (editor : TextEditor) (args : jsval)
    (next : Diagnostic) (b : bool) :
  isFilterErrorOnly args = Some b ->
  completion (selectInFile host editor args next) = Returns true /\
  lastPosition (selectInFile host editor args next)
  = Some {| last_uri := document_uri editor; last_position := start (diag_range next) |} /\
  exists rest,
    effects (selectInFile host editor args next)
    = SetSelection (emptyRangeAt (start (diag_range next)))
      :: ExecuteCommand CloseMarkersNavigation :: rest.
Proof.
  intros Hb. unfold selectInFile. rewrite Hb.
  destruct b; cbn [completion lastPosition effects app];
    (split; [reflexivity|split; [reflexivity|eexists; reflexivity]]).
Qed.

Section InFile.
Variables (host : Host) (editor : TextEditor) (args : jsval).
Variable diagnostics : list Diagnostic.
Hypothesis Heditor : activeTextEditor host = Some editor.
Hypothesis Hfilter :
  filterDiagnostics (diagnosticsOf (getDiagnostics host) (document_uri editor)) args
  = Some diagnostics.

Lemma gotoMarkerInFile_empty (lp : option LastPosition) (direction : Direction) (loop : bool) :
  diagnostics = [] ->
  gotoMarkerInFile host lp args direction loop
  = {| completion := Returns false;
       lastPosition := resetLastPosition lp editor; effects := [] |}.
Proof.
  intros ->. unfold gotoMarkerInFile. rewrite Heditor, Hfilter. reflexivity.
Qed.

Lemma gotoMarkerInFile_nonempty (lp : option LastPosition) (direction : Direction) (loop : bool) :
  diagnostics <> [] ->
  gotoMarkerInFile host lp args direction loop
  = let lp' := resetLastPosition lp editor in
    match closestMarker lp' direction (cursorInFile editor) diagnostics with
    | Some next => selectInFile host editor args next
    | None =>
        if loop then
          match wrapAround direction diagnostics with
          | Some next =>
              if alreadyThere lp' editor next then
                {| completion := Returns true; lastPosition := lp'; effects := [] |}
              else selectInFile host editor args next
          | None => {| completion := Throws; lastPosition := lp'; effects := [] |}
          end
        else {| completion := Returns false; lastPosition := lp'; effects := [] |}
    end.
Proof.
  intros Hne. unfold gotoMarkerInFile. rewrite Heditor, Hfilter.
  destruct diagnostics; [contradiction|reflexivity].
Qed.

Lemma wrapAround_target (direction : Direction) :
  diagnostics <> [] ->
  exists target,
    wrapAround direction diagnostics = Some target /\
    match direction with
    | DirNext =>
        (exists rest, sortDiagnostics diagnostics = target :: rest) /\
        forall d, In d diagnostics -> leLoc target d
    | DirPrev =>
        (exists front, sortDiagnostics diagnostics = front ++ [target]) /\
        forall d, In d diagnostics -> leLoc d target
    end.
Proof.
  intros Hne. destruct direction.
  - destruct (wrapAround_next diagnostics Hne) as (t & rest & E & W).
    exists t; split; [exact W|split; [eauto|]].
    apply (sorted_first_least diagnostics t rest (uniformUri_Diagnostic _) E).
  - destruct (wrapAround_prev diagnostics Hne) as (t & front & E & W).
    exists t; split; [exact W|split; [eauto|]].
    apply (sorted_last_greatest diagnostics front t (uniformUri_Diagnostic _) E).
Qed.

End InFile.

(** C5. In [gotoMarkerInFile] with [loop] enabled, when the directional fold
    over the candidates that are not skipped yields [null] and the filtered
    list is not empty, the target is the first element of the sorted
    filtered list for ["next"] and the last for ["prev"] (a least,
    respectively greatest, marker under the comparator); the command
    returns [true], records the target in [lastPosition] and moves the
    selection to its start; except that when the target's start equals both
    the position of [lastPosition] (as it stands after the reset of line
    184) and the start of the current selection, it returns [true] with no
    request to the editor and [lastPosition] as at entry. *)
Theorem gotoMarkerInFile_wraparound
    (host : Host) (editor : TextEditor) (args : jsval) (diagnostics : list Diagnostic)
    (lp : option LastPosition) (direction : Direction) :
  activeTextEditor host = Some editor ->
  filterDiagnostics (diagnosticsOf (getDiagnostics host) (document_uri editor)) args
  = Some diagnostics ->
  diagnostics <> [] ->
  foldDirection direction (cursorInFile editor)
    (notSkipped (resetLastPosition lp editor) diagnostics) = None ->
  exists target,
    match direction with
    | DirNext =>
        (exists rest, sortDiagnostics diagnostics = target :: rest) /\
        forall d, In d diagnostics -> leLoc target d
    | DirPrev =>
        (exists front, sortDiagnostics diagnostics = front ++ [target]) /\
        forall d, In d diagnostics -> leLoc d target
    end /\
    let out := gotoMarkerInFile host lp args direction true in
    let there :=
      exists l, resetLastPosition lp editor = Some l /\
                last_position l = start (diag_range target) /\
                start (selection editor) = start (diag_range target) in
    (there ->
       out = {| completion := Returns true; lastPosition := lp; effects := [] |}) /\
    (~ there ->
       completion out = Returns true /\
       lastPosition out
       = Some {| last_uri := document_uri editor;
                 last_position := start (diag_range target) |} /\
       exists rest,
         effects out
         = SetSelection (emptyRangeAt (start (diag_range target)))
           :: ExecuteCommand CloseMarkersNavigation :: rest).
Proof.
  intros Heditor Hfilter Hne Hfold.
  destruct (wrapAround_target diagnostics direction Hne) as (target & Hwrap & Hsorted).
  exists target. split; [exact Hsorted|].
  cbv zeta. rewrite (gotoMarkerInFile_nonempty host editor args diagnostics Heditor Hfilter
                       lp direction true Hne).
  cbv zeta. rewrite closestMarker_fold, Hfold, Hwrap.
  rewrite <- alreadyThere_spec.
  destruct (alreadyThere (resetLastPosition lp editor) editor target) eqn:Hthere.
  - split; [|intros Hn; exfalso; apply Hn; reflexivity].
    intros _. apply alreadyThere_spec in Hthere as (l & Hl & _).
    apply resetLastPosition_some in Hl as H'. destruct H' as [-> _].
    rewrite Hl; reflexivity.
  - split; [discriminate|]. intros _.
    destruct (filterDiagnostics_args_ok _ _ _ Hfilter) as (b & Hb).
    exact (selectInFile_moves host editor args target b Hb).
Qed.

Lemma gotoMarkerInFile_wraparound_witness :
  gotoMarkerInFile hostOneMarker (Some (visited docA 3 0)) JUndefined DirNext true
  = {| completion := Returns true;
       lastPosition := Some (visited docA 3 0); effects := [] |}.
Proof.
  destruct (gotoMarkerInFile_wraparound hostOneMarker (editorAt docA 3 0) JUndefined
              [markerAt 3 0 Error None] (Some (visited docA 3 0)) DirNext
              eq_refl eq_refl) as (target & (Hsorted & _) & Hthere & _).
  - discriminate.
  - reflexivity.
  - destruct Hsorted as (rest & Hsorted).
    injection Hsorted as <- _.
    apply Hthere. exists (visited docA 3 0). repeat split.
Defined.

(** C9 (amended). When [gotoMarkerInFile] finds no target it returns
    [false] and makes no request to the editor. Without an active editor
    [lastPosition] is unchanged; with one, for an empty filtered list or a
    null fold with [loop] disabled, [lastPosition] is what the reset of
    line 184 leaves: its value at entry, or [null] if that value belonged
    to another document. *)
Theorem gotoMarkerInFile_no_target
    (host : Host) (lp : option LastPosition) (args : jsval)
    (direction : Direction) (loop : bool) :
  let out := gotoMarkerInFile host lp args direction loop in
  (activeTextEditor host = None ->
     out = {| completion := Returns false; lastPosition := lp; effects := [] |}) /\
  (forall editor diagnostics,
     activeTextEditor host = Some editor ->
     filterDiagnostics (diagnosticsOf (getDiagnostics host) (document_uri editor)) args
     = Some diagnostics ->
     diagnostics = [] \/
     (loop = false /\
      foldDirection direction (cursorInFile editor)
        (notSkipped (resetLastPosition lp editor) diagnostics) = None) ->
     out = {| completion := Returns false;
              lastPosition := resetLastPosition lp editor; effects := [] |} /\
     (resetLastPosition lp editor = lp \/
      exists l, lp = Some l /\ last_uri l <> document_uri editor
                /\ resetLastPosition lp editor = None)).
Proof.
  cbv zeta. split.
  - intros Hnone. unfold gotoMarkerInFile. rewrite Hnone. reflexivity.
  - intros editor diagnostics Heditor Hfilter Hcase.
    split; [|apply resetLastPosition_cases].
    destruct diagnostics as [|d ds].
    + apply (gotoMarkerInFile_empty host editor args [] Heditor Hfilter); reflexivity.
    + destruct Hcase as [Hnil|[-> Hfold]]; [discriminate|].
      rewrite (gotoMarkerInFile_nonempty host editor args (d :: ds) Heditor Hfilter)
        by discriminate.
      cbv zeta. rewrite closestMarker_fold, Hfold. reflexivity.
Qed.

Lemma gotoMarkerInFile_no_target_witness :
  gotoMarkerInFile hostNoMarker (Some (visited docB 3 0)) JUndefined DirNext true
  = {| completion := Returns false;
       lastPosition := Some (visited docB 3 0); effects := [] |}.
Proof.
  apply (proj2 (gotoMarkerInFile_no_target hostNoMarker (Some (visited docB 3 0))
                  JUndefined DirNext true)
           (editorAt docB 0 0) [] eq_refl eq_refl).
  left; reflexivity.
Defined.

(** C9, as stated, fails: the active document has no marker, the call
    returns [false], and a [lastPosition] recorded in another document is
    cleared all the same. *)
Lemma gotoMarkerInFile_no_target_clears_lastPosition :
  gotoMarkerInFile hostNoMarker (Some (visited docA 3 0)) JUndefined DirNext true
  = {| completion := Returns false; lastPosition := None; effects := [] |}.
Proof. reflexivity. Qed.

(** C10. In [gotoNextMarkerInFiles] the loop skips by position alone: with
    [lastPosition] set, the directional fold runs over exactly the markers
    whose start differs from the position of [lastPosition], so a marker
    that starts there is never its result, whatever document it is in; the
    command goes to the result of that fold and records it in
    [lastPosition], or wraps around when the fold is [null]. *)
Theorem gotoNextMarkerInFiles_skip_by_position
    (lp : LastPosition) (direction : Direction) (cursor : DiagnosticLoc)
    (diagnostics : list DiagnosticWithUri) :
  let candidates :=
    filter (fun d => negb (isEqual (start (diag_range (diag d))) (last_position lp)))
      diagnostics in
  closestMarker (Some lp) direction cursor diagnostics
  = foldDirection direction cursor candidates /\
  (forall d, In d diagnostics ->
     start (diag_range (diag d)) = last_position lp ->
     ~ In d candidates /\
     closestMarker (Some lp) direction cursor diagnostics <> Some d) /\
  targetInFiles (Some lp) direction cursor diagnostics
  = match foldDirection direction cursor candidates with
    | Some next => Some next
    | None => wrapAround direction diagnostics
    end /\
  (forall host args next,
     filterDiagnostics (diagnosticsWithUri (getDiagnostics host)) args = Some diagnostics ->
     foldDirection direction (cursorInFiles host) candidates = Some next ->
     start (diag_range (diag next)) <> last_position lp /\
     lastPosition (gotoNextMarkerInFiles host (Some lp) args direction)
     = Some {| last_uri := diag_uri next;
               last_position := start (diag_range (diag next)) |}).
Proof.
  cbv zeta. split; [exact (closestMarker_fold (Some lp) direction cursor diagnostics)|split].
  - intros d Hin Hpos. split.
    + intros Hc. apply filter_In in Hc as [_ Hc].
      rewrite (proj2 (isEqual_eq _ _) Hpos) in Hc. discriminate.
    + intros Hc. apply closestMarker_not_skipped in Hc as [_ Hs].
      cbn [skipped loc Located_DiagnosticWithUri range] in Hs.
      unfold loc, Located_DiagnosticWithUri in Hs; cbn [range] in Hs.
      rewrite (proj2 (isEqual_eq _ _) Hpos) in Hs. discriminate.
  - split; [unfold targetInFiles; rewrite closestMarker_fold; reflexivity|].
    intros host args next Hfilter Hfold.
    pose proof (closestMarker_fold (Some lp) direction (cursorInFiles host) diagnostics)
      as Hclosest.
    change (notSkipped (Some lp) diagnostics)
      with (filter (fun d => negb (isEqual (start (diag_range (diag d))) (last_position lp)))
              diagnostics) in Hclosest.
    rewrite Hfold in Hclosest. split.
    + apply closestMarker_not_skipped in Hclosest as [_ Hs].
      intros Hpos. unfold skipped, loc, Located_DiagnosticWithUri in Hs; cbn [range] in Hs.
      rewrite (proj2 (isEqual_eq _ _) Hpos) in Hs. discriminate.
    + unfold gotoNextMarkerInFiles, targetInFiles. rewrite Hfilter, Hclosest.
      apply closestMarker_not_skipped in Hclosest as [Hin _].
      destruct diagnostics; [destruct Hin|reflexivity].
Qed.

Lemma gotoNextMarkerInFiles_skip_by_position_witness :
  let inA := {| diag := markerAt 3 0 Error None; diag_uri := docA |} in
  let inB := {| diag := markerAt 3 0 Error None; diag_uri := docB |} in
  closestMarker (Some (visited docA 3 0)) DirNext
    {| range := emptyRangeAt (pos 3 0); uri := Some docA |} [inA; inB] <> Some inB.
Proof.
  intros inA inB.
  apply (proj1 (proj2 (gotoNextMarkerInFiles_skip_by_position (visited docA 3 0) DirNext
                  {| range := emptyRangeAt (pos 3 0); uri := Some docA |} [inA; inB]))
           inB).
  - simpl; auto.
  - reflexivity.
Defined.

(* ================================================================== *)
(** * Further properties *)

(** ** Patterns *)

Lemma compileAlts_length (p : jsstring) :
  List.length (compileAlts p) = S (countBars p).
Proof.
  unfold countBars. induction p as [|c p IH]; [reflexivity|].
  cbn [compileAlts filter]. rewrite (N.eqb_sym c_bar c).
  destruct (N.eqb c c_bar); cbn [List.length]; [rewrite IH; reflexivity|].
  pose proof (compileAlts_nonempty p) as Hne.
  destruct (compileAlts p); [contradiction|exact IH].
Qed.

(** X1. [globToRe] never throws: for every pattern, whatever characters it
    holds, the text built by the two [replace] calls is a well-formed
    expression, with one alternative more than the pattern has [|]s. *)
Theorem globToRe_total (p : jsstring) :
  exists re, globToRe p = Some re /\ List.length re = S (countBars p).
Proof.
  exists (compileGlob p). split; [apply globToRe_compileGlob|].
  unfold compileGlob. pose proof (compileAlts_length p) as Hlen.
  destruct (compileAlts p); [discriminate Hlen|exact Hlen].
Qed.

Lemma matches_nobar (p s : jsstring) :
  hasBar p = false -> matches s (compileGlob p) = globMatch p s.
Proof.
  intros Hb. unfold compileGlob. rewrite (compileAlts_nobar p Hb).
  rewrite matches_single. apply matchTerms_glob.
Qed.

Lemma globMatch_literal (p s : jsstring) :
  hasStar p = false -> globMatch p s = JsString.eqb p s.
Proof.
  unfold hasStar, globMatch. revert s; induction p as [|c p IH]; intros s Hs.
  - destruct s; reflexivity.
  - cbn [existsb] in Hs. apply orb_false_iff in Hs as [Hc Hp].
    rewrite glob_char by (rewrite N.eqb_sym; exact Hc).
    destruct s as [|x rest]; [reflexivity|].
    cbn [JsString.eqb]. rewrite (IH rest Hp). reflexivity.
Qed.

(** X2. A pattern without [*] and [|] matches its own text and nothing
    else: every other character that means something in an expression
    ([.], [+], [(], [\], ...) is neutralised by the escaping. *)
Theorem globToRe_literal (p s : jsstring) :
  hasStar p = false -> hasBar p = false ->
  option_map (matches s) (globToRe p) = Some (JsString.eqb p s).
Proof.
  intros Hs Hb. rewrite globToRe_compileGlob. cbn [option_map].
  rewrite (matches_nobar p s Hb), (globMatch_literal p s Hs). reflexivity.
Qed.

Lemma globToRe_literal_witness :
  option_map (matches (str "c++ (a.b)")) (globToRe (str "c++ (a.b)")) = Some true /\
  option_map (matches (str "c++ (axb)")) (globToRe (str "c++ (a.b)")) = Some false.
Proof.
  split.
  - exact (globToRe_literal (str "c++ (a.b)") (str "c++ (a.b)") eq_refl eq_refl).
  - exact (globToRe_literal (str "c++ (a.b)") (str "c++ (axb)") eq_refl eq_refl).
Defined.

Lemma hasBar_app (p q : jsstring) : hasBar (p ++ q) = hasBar p || hasBar q.
Proof. unfold hasBar; apply existsb_app. Qed.

Lemma globMatch_star_only (s : jsstring) :
  globMatch [c_star] s = forallb (fun c => negb (isLineTerminator c)) s.
Proof.
  unfold globMatch. induction s as [|x rest IH]; [reflexivity|].
  rewrite glob_star_cons, IH. reflexivity.
Qed.

Lemma globMatch_prefix (p s : jsstring) :
  hasStar p = false ->
  globMatch (p ++ [c_star]) s = true <->
  exists t, s = p ++ t /\ forallb (fun c => negb (isLineTerminator c)) t = true.
Proof.
  unfold hasStar. revert s; induction p as [|c p IH]; intros s Hs.
  - cbn [app]. rewrite globMatch_star_only. split; [eauto|].
    intros (t & -> & Ht); exact Ht.
  - cbn [existsb] in Hs. apply orb_false_iff in Hs as [Hc Hp].
    cbn [app]. unfold globMatch.
    rewrite glob_char by (rewrite N.eqb_sym; exact Hc).
    destruct s as [|x rest].
    + split; [discriminate|]. intros (t & Ht & _); discriminate.
    + rewrite andb_true_iff, N.eqb_eq. fold (globMatch (p ++ [c_star]) rest).
      rewrite (IH rest Hp). split.
      * intros (-> & t & -> & Ht). exists t; auto.
      * intros (t & [= -> ->] & Ht). split; [reflexivity|eauto].
Qed.

(** X3. A pattern that is plain text followed by one [*] matches exactly
    the candidates that begin with that text and go on, to their end,
    without a line terminator. *)
Theorem globToRe_prefix (p s : jsstring) :
  hasStar p = false -> hasBar p = false ->
  option_map (matches s) (globToRe (p ++ [c_star])) = Some true <->
  exists t, s = p ++ t /\ forallb (fun c => negb (isLineTerminator c)) t = true.
Proof.
  intros Hs Hb. rewrite globToRe_compileGlob. cbn [option_map].
  rewrite matches_nobar by (rewrite hasBar_app, Hb; reflexivity).
  rewrite <- (globMatch_prefix p s Hs). split; [intros [= ->]; reflexivity|].
  intros ->; reflexivity.
Qed.

Lemma globToRe_prefix_witness :
  option_map (matches (str "eslint-plugin")) (globToRe (str "eslint" ++ [c_star])) = Some true.
Proof.
  apply (proj2 (globToRe_prefix (str "eslint") (str "eslint-plugin") eq_refl eq_refl)).
  exists (str "-plugin"). split; reflexivity.
Defined.

(** ** The marker filter, continued *)

Lemma filter_all {A : Type} (f : A -> bool) (l : list A) :
  (forall x, In x l -> f x = true) -> filter f l = l.
Proof.
  induction l as [|x l IH]; intros Hall; [reflexivity|].
  cbn [filter]. rewrite (Hall x (or_introl eq_refl)), IH; [reflexivity|].
  intros y Hy; apply Hall; right; exact Hy.
Qed.

Lemma filter_none {A : Type} (f : A -> bool) (l : list A) :
  filter f l = [] <-> forall x, In x l -> f x = false.
Proof.
  induction l as [|x l IH]; cbn [filter]; [split; [intros _ x []|reflexivity]|].
  destruct (f x) eqn:Hx; split.
  - discriminate.
  - intros Hall. rewrite (Hall x (or_introl eq_refl)) in Hx; discriminate.
  - intros He y [<-|Hy]; [exact Hx|apply IH; assumption].
  - intros Hall. apply IH. intros y Hy; apply Hall; right; exact Hy.
Qed.

Lemma filter_filter {A : Type} (f g : A -> bool) (l : list A) :
  filter g (filter f l) = filter (fun x => f x && g x) l.
Proof.
  induction l as [|x l IH]; [reflexivity|]. cbn [filter].
  destruct (f x); cbn [filter andb]; [destruct (g x)|]; rewrite IH; reflexivity.
Qed.

Lemma severity_eqb_eq (a b : DiagnosticSeverity) : severity_eqb a b = true <-> a = b.
Proof. destruct a, b; cbn; split; congruence. Qed.

Lemma severityOfName_cases (s : jsval) :
  severityOfName s = ReturnsUndefined \/ exists y, severityOfName s = ReturnsArray [y].
Proof.
  unfold severityOfName.
  repeat match goal with |- context [if ?c then _ else _] => destruct c end; eauto.
Qed.

Lemma setHas_flatMap (l : list jsval) (x : DiagnosticSeverity) :
  setHas (flatMapSeverities l) x = true <->
  exists s, In s l /\ severityOfName s = ReturnsArray [x].
Proof.
  unfold setHas, flatMapSeverities. induction l as [|s l IH].
  - split; [discriminate|intros (s & [] & _)].
  - cbn [flat_map]. rewrite existsb_app, orb_true_iff, IH. split.
    + intros [Hs|(t & Ht & Hn)]; [|exists t; simpl; auto].
      exists s. split; [left; reflexivity|].
      destruct (severityOfName_cases s) as [E|(y & E)]; rewrite E in Hs |- *.
      * discriminate.
      * cbn in Hs. rewrite orb_false_r in Hs. apply severity_eqb_eq in Hs. congruence.
    + intros (t & [<-|Ht] & Hn); [left|right; eauto].
      rewrite Hn. cbn. rewrite orb_false_r. apply severity_eqb_eq; reflexivity.
Qed.

Lemma flatMapSeverities_nonempty (first : jsval) (rest : list jsval) :
  (0 <? List.length (flatMapSeverities (first :: rest)))%nat = true.
Proof.
  unfold flatMapSeverities; cbn [flat_map].
  destruct (severityOfName_cases first) as [E|(y & E)]; rewrite E; reflexivity.
Qed.

Lemma severitiesOf_none (args : jsval) : severitiesOf args = None <-> args = JNull.
Proof.
  split; [|intros ->; reflexivity].
  destruct args; try discriminate; [reflexivity|].
  destruct (severitiesOf_object props) as (sevs & ->). discriminate.
Qed.

Section FilterStages.
Context {D : Type} `{IsDiagnostic D}.

Lemma filterDiagnostics_stages (ds : list D) (args : jsval) :
  filterDiagnostics ds args
  = match severitiesOf args with
    | Some _ => sourceStage (keptBySeverity ds args) args
    | None => None
    end.
Proof.
  unfold filterDiagnostics, keptBySeverity, sourceStage.
  destruct (severitiesOf args); reflexivity.
Qed.

Lemma sourceLoop_shape (kept : list D) (srcs : list jsval) (out : list D) :
  sourceLoop kept srcs = Some out -> exists g, out = filter g kept.
Proof.
  induction srcs as [|src rest IH]; cbn [sourceLoop].
  - intros [= <-]. exists (fun _ => false). symmetry; apply filter_none; reflexivity.
  - destruct (isString src "*").
    + intros [= <-]. exists (fun _ => true). symmetry; apply filter_all; reflexivity.
    + destruct src; try discriminate.
      destruct (globToRe s) as [re|]; [|discriminate].
      destruct (0 <? _)%nat; [intros [= <-]; eauto|exact IH].
Qed.

Lemma sourceStage_shape (kept : list D) (args : jsval) (out : list D) :
  sourceStage kept args = Some out -> exists g, out = filter g kept.
Proof.
  assert (Hk : exists g, kept = filter g kept)
    by (exists (fun _ => true); symmetry; apply filter_all; reflexivity).
  unfold sourceStage.
  destruct (negb (typeofObject args)); [intros [= <-]; exact Hk|].
  destruct (getProp args "source") as [src|]; [|discriminate].
  destruct (negb (truthy src) || negb (isArray src)); [intros [= <-]; exact Hk|].
  destruct src; try (intros [= <-]; exact Hk). apply sourceLoop_shape.
Qed.

Lemma sourceLoop_idempotent (kept : list D) (srcs : list jsval) (out : list D) :
  sourceLoop kept srcs = Some out -> sourceLoop out srcs = Some out.
Proof.
  induction srcs as [|src rest IH]; cbn [sourceLoop].
  - intros [= <-]; reflexivity.
  - destruct (isString src "*"); [intros [= <-]; reflexivity|].
    destruct src; try discriminate.
    destruct (globToRe s) as [re|]; [|discriminate].
    rewrite !length_pos_nonempty.
    destruct (filter (sourceMatches re) kept) as [|d0 sel] eqn:Hsel; cbn [negb].
    + intros Hrest. destruct (sourceLoop_shape kept rest out Hrest) as (g & Hg).
      replace (filter (sourceMatches re) out) with (@nil D); [apply IH; exact Hrest|].
      symmetry. apply filter_none. intros x Hx. rewrite Hg in Hx.
      apply filter_In in Hx as [Hx _].
      exact (proj1 (filter_none _ _) Hsel x Hx).
    + intros [= <-]. rewrite <- Hsel, filter_filter.
      replace (filter (fun x => sourceMatches re x && sourceMatches re x) kept)
        with (filter (sourceMatches re) kept)
        by (apply filter_ext; intros x; destruct (sourceMatches re x); reflexivity).
      rewrite Hsel. reflexivity.
Qed.

Lemma sourceStage_idempotent (kept : list D) (args : jsval) (out : list D) :
  sourceStage kept args = Some out -> sourceStage out args = Some out.
Proof.
  unfold sourceStage.
  destruct (negb (typeofObject args)); [intros [= <-]; reflexivity|].
  destruct (getProp args "source") as [src|]; [|discriminate].
  destruct (negb (truthy src) || negb (isArray src)); [intros [= <-]; reflexivity|].
  destruct src; try (intros [= <-]; reflexivity). apply sourceLoop_idempotent.
Qed.

Lemma sourceLoop_throws (kept : list D) (srcs : list jsval) :
  sourceLoop kept srcs = None <->
  exists before bad after,
    srcs = map JString before ++ bad :: after /\ isJString bad = false /\
    forall p, In p before -> isStar p = false /\ selectedBy p kept = [].
Proof.
  split.
  - induction srcs as [|src rest IH]; [discriminate|].
    destruct src as [| | | |p| |];
      try (match goal with
           | |- sourceLoop _ (?b :: _) = None -> _ =>
               intros _; exists [], b, rest;
               split; [reflexivity|split; [reflexivity|intros q []]]
           end).
    rewrite sourceLoop_cons.
    destruct (isStar p) eqn:Hp; [discriminate|].
    rewrite length_pos_nonempty.
    destruct (selectedBy p kept) eqn:Hsel; [|discriminate]. cbn [negb].
    intros Hrest. destruct (IH Hrest) as (before & bad & after & -> & Hbad & Hall).
    exists (p :: before), bad, after.
    split; [reflexivity|split; [exact Hbad|]].
    intros q [<-|Hq]; [split; assumption|apply Hall; exact Hq].
  - intros (before & bad & after & -> & Hbad & Hall).
    induction before as [|p before IH]; cbn [map app].
    + destruct bad; try reflexivity. discriminate.
    + rewrite sourceLoop_cons.
      destruct (Hall p (or_introl eq_refl)) as [-> ->]. cbn [List.length Nat.ltb Nat.leb].
      apply IH. intros q Hq; apply Hall; right; exact Hq.
Qed.

Lemma filterDiagnostics_kept (ds : list D) (args : jsval) (out : list D) :
  filterDiagnostics ds args = Some out ->
  exists g, out = filter g (keptBySeverity ds args).
Proof.
  rewrite filterDiagnostics_stages.
  destruct (severitiesOf args); [apply sourceStage_shape|discriminate].
Qed.

End FilterStages.

(** X4. Whatever [args] is, a result of [filterDiagnostics] is the input
    list with some markers left out: nothing is added, nothing reordered,
    and every marker that remains has passed the severity stage. *)
Theorem filterDiagnostics_selects (D : Type) `{IsDiagnostic D}
    (ds : list D) (args : jsval) (out : list D) :
  filterDiagnostics ds args = Some out ->
  (exists keep, out = filter keep ds) /\
  forall d, In d out -> In d ds /\ In d (keptBySeverity ds args).
Proof.
  intros Hout. destruct (filterDiagnostics_kept ds args out Hout) as (g & Hg).
  split.
  - unfold keptBySeverity in Hg. destruct (severitiesOf args).
    + rewrite filter_filter in Hg. eauto.
    + exists (fun _ => false). rewrite Hg. symmetry; apply filter_none; reflexivity.
  - intros d Hd. rewrite Hg in Hd. apply filter_In in Hd as [Hd _].
    split; [|exact Hd]. unfold keptBySeverity in Hd.
    destruct (severitiesOf args); [|destruct Hd].
    apply filter_In in Hd as [Hd _]; exact Hd.
Qed.

Local Open Scope string_scope.

Lemma filterDiagnostics_selects_witness :
  let ds := [markerAt 1 0 Hint None; markerAt 2 0 Error (Some (str "tsc"));
             markerAt 3 0 Error None] in
  In (markerAt 2 0 Error (Some (str "tsc"))) ds /\
  In (markerAt 2 0 Error (Some (str "tsc"))) (keptBySeverity ds (argsOf ["error"] ["tsc"])).
Proof.
  intros ds.
  exact (proj2 (filterDiagnostics_selects Diagnostic ds (argsOf ["error"] ["tsc"])
                  [markerAt 2 0 Error (Some (str "tsc"))] eq_refl)
           (markerAt 2 0 Error (Some (str "tsc"))) (or_introl eq_refl)).
Defined.

(** X5. Filtering is idempotent: filtering a result again with the same
    [args] gives it back unchanged. *)
Theorem filterDiagnostics_idempotent (D : Type) `{IsDiagnostic D}
    (ds : list D) (args : jsval) (out : list D) :
  filterDiagnostics ds args = Some out -> filterDiagnostics out args = Some out.
Proof.
  intros Hout. destruct (filterDiagnostics_kept ds args out Hout) as (g & Hg).
  rewrite filterDiagnostics_stages in Hout |- *.
  destruct (severitiesOf args) as [sevs|] eqn:Hsev; [|discriminate].
  replace (keptBySeverity out args) with out.
  - apply sourceStage_idempotent with (kept := keptBySeverity ds args). exact Hout.
  - symmetry. unfold keptBySeverity in Hg |- *. rewrite Hsev in Hg |- *.
    apply filter_all. intros d Hd. rewrite Hg in Hd.
    apply filter_In in Hd as [Hd _]. apply filter_In in Hd as [_ Hd]. exact Hd.
Qed.

Lemma filterDiagnostics_idempotent_witness :
  filterDiagnostics [markerAt 2 0 Error (Some (str "tsc"))] (argsOf ["error"] ["tsc"; "*"])
  = Some [markerAt 2 0 Error (Some (str "tsc"))].
Proof.
  exact (filterDiagnostics_idempotent Diagnostic
           [markerAt 1 0 Hint None; markerAt 2 0 Error (Some (str "tsc"));
            markerAt 3 0 Error None]
           (argsOf ["error"] ["tsc"; "*"]) _ eq_refl).
Defined.

(** X6. The severity stage, for an [args] object without [source]: when
    [severity] is a non-empty array a marker is kept exactly if some entry
    names its severity (order, repetitions and entries that name nothing
    make no difference); when [severity] is absent, not an array or the
    empty array, exactly the errors and warnings are kept. *)
Theorem filterDiagnostics_severity_stage (D : Type) `{IsDiagnostic D}
    (ds : list D) (props : list (jsstring * jsval)) (sev : jsval) :
  getProp (JObject props) "severity" = Some sev ->
  getProp (JObject props) "source" = Some JUndefined ->
  exists out,
    filterDiagnostics ds (JObject props) = Some out /\
    forall d, In d out <-> In d ds /\ severityWanted sev (severity d).
Proof.
  intros Hsev Hsrc. unfold filterDiagnostics, severitiesOf.
  cbn [typeofObject negb]. rewrite Hsev, Hsrc. cbn [truthy negb orb].
  assert (Hdef : forall d : D,
             setHas defaultSeverities (severity d) = true <->
             severity d = Error \/ severity d = Warning).
  { intros d. unfold setHas, defaultSeverities. destruct (severity d); cbn;
      split; auto; intros Hx; try discriminate Hx; destruct Hx; discriminate. }
  destruct sev as [| | | | |[|first rest]|];
    try (eexists; split; [reflexivity|];
         intros d; rewrite filter_In, Hdef; reflexivity).
  rewrite flatMapSeverities_nonempty.
  eexists; split; [reflexivity|].
  intros d. rewrite filter_In, setHas_flatMap. reflexivity.
Qed.

Lemma filterDiagnostics_severity_stage_witness :
  exists out,
    filterDiagnostics [markerAt 1 0 Hint None; markerAt 2 0 Warning None]
      (severityArgs ["verbose"; "warn"; "warn"]) = Some out /\
    forall d, In d out <->
      In d [markerAt 1 0 Hint None; markerAt 2 0 Warning None] /\
      severityWanted (JArray [JString (str "verbose"); JString (str "warn"); JString (str "warn")])
        (severity d).
Proof.
  exact (filterDiagnostics_severity_stage Diagnostic
           [markerAt 1 0 Hint None; markerAt 2 0 Warning None]
           [(str "severity",
             JArray [JString (str "verbose"); JString (str "warn"); JString (str "warn")])]
           _ eq_refl eq_refl).
Defined.

(** X7. An empty [source] array is not "no filter": the loop runs zero
    times and the result is the empty list, whatever the markers. *)
Theorem filterDiagnostics_empty_source (D : Type) `{IsDiagnostic D}
    (ds : list D) (props : list (jsstring * jsval)) :
  getProp (JObject props) "source" = Some (JArray []) ->
  filterDiagnostics ds (JObject props) = Some [].
Proof. intros Hsrc. rewrite (filterDiagnostics_sources ds props [] Hsrc). reflexivity. Qed.

Lemma filterDiagnostics_empty_source_witness :
  filterDiagnostics [markerAt 1 0 Error None] (argsOf ["error"] []) = Some [].
Proof.
  exact (filterDiagnostics_empty_source Diagnostic [markerAt 1 0 Error None]
           (propsOf ["error"] []) eq_refl).
Defined.

(** X8. [filterDiagnostics] throws in two situations only: [args] is
    [null], or [source] is an array in which an entry that is not a string
    comes before any ["*"] and before any pattern that selects a marker. *)
Theorem filterDiagnostics_throws (D : Type) `{IsDiagnostic D}
    (ds : list D) (args : jsval) :
  filterDiagnostics ds args = None <->
  args = JNull \/
  exists before bad after,
    getProp args "source" = Some (JArray (map JString before ++ bad :: after)) /\
    isJString bad = false /\
    forall p, In p before ->
      isStar p = false /\ selectedBy p (keptBySeverity ds args) = [].
Proof.
  rewrite filterDiagnostics_stages. split.
  - destruct args; try discriminate; [left; reflexivity|].
    destruct (severitiesOf_object props) as (sevs & ->).
    unfold sourceStage. cbn [typeofObject negb].
    destruct (getProp (JObject props) "source") as [src|] eqn:Hsrc; [|discriminate].
    destruct (negb (truthy src) || negb (isArray src)); [discriminate|].
    destruct src; try discriminate.
    intros Hloop. right. apply sourceLoop_throws in Hloop
      as (before & bad & after & -> & Hbad & Hall).
    exists before, bad, after; auto.
  - intros [->|(before & bad & after & Hsrc & Hbad & Hall)]; [reflexivity|].
    destruct args; try discriminate.
    destruct (severitiesOf_object props) as (sevs & ->).
    unfold sourceStage. cbn [typeofObject negb]. rewrite Hsrc. cbn [truthy isArray negb orb].
    apply sourceLoop_throws. exists before, bad, after; auto.
Qed.

Lemma filterDiagnostics_throws_witness :
  filterDiagnostics [markerAt 1 0 Error (Some (str "tsc"))]
    (JObject [(str "source", JArray [JString (str "eslint"); JNumber 1])]) = None.
Proof.
  apply (proj2 (filterDiagnostics_throws Diagnostic [markerAt 1 0 Error (Some (str "tsc"))]
                  (JObject [(str "source", JArray [JString (str "eslint"); JNumber 1])]))).
  right. exists [str "eslint"], (JNumber 1), []. split; [reflexivity|split; [reflexivity|]].
  intros p [<-|[]]. split; reflexivity.
Defined.

Local Close Scope string_scope.

(** ** The comparator and the selectors, continued *)

Lemma comparePositions_lt (a b : DiagnosticLoc) :
  (comparePositions a b < 0)%Z <-> isBefore (start (range a)) (start (range b)) = true.
Proof.
  unfold comparePositions, isBefore, isEqual.
  destruct (start (range a)) as [la ca], (start (range b)) as [lb cb]; cbn [line character].
  split; intros Hx; nat_cases.
Qed.

Lemma comparePositions_gt (a b : DiagnosticLoc) :
  (comparePositions a b > 0)%Z <-> isBefore (start (range b)) (start (range a)) = true.
Proof.
  unfold comparePositions, isBefore, isEqual.
  destruct (start (range a)) as [la ca], (start (range b)) as [lb cb]; cbn [line character].
  split; intros Hx; nat_cases.
Qed.

(** X9. Between two locations that both carry a document identifier the
    order is lexicographic: the identifiers decide, as strings, and the
    start positions are consulted only inside one document. *)
Theorem compareDiagnosticLoc_lexicographic (a b : DiagnosticLoc) (ua ub : Uri) :
  uri a = Some ua -> uri b = Some ub ->
  ((compareDiagnosticLoc a b < 0)%Z <->
   JsString.ltb ua ub = true \/
   (ua = ub /\ isBefore (start (range a)) (start (range b)) = true)).
Proof.
  intros Ha Hb. unfold compareDiagnosticLoc. rewrite Ha, Hb.
  destruct (jsstring_eqb_spec ua ub) as [->|Hne].
  - rewrite comparePositions_lt, jsstring_ltb_irrefl. split; [auto|].
    intros [Hx|[_ Hx]]; [discriminate|exact Hx].
  - destruct (JsString.ltb ua ub); split; auto; try lia.
    intros [Hx|[Hx _]]; [discriminate|contradiction].
Qed.

Lemma compareDiagnosticLoc_lexicographic_witness :
  (compareDiagnosticLoc (inDoc "file:///a.ts" 90 0) (inDoc "file:///b.ts" 1 0) < 0)%Z.
Proof.
  apply (proj2 (compareDiagnosticLoc_lexicographic
                  (inDoc "file:///a.ts" 90 0) (inDoc "file:///b.ts" 1 0)
                  (str "file:///a.ts") (str "file:///b.ts") eq_refl eq_refl)).
  left; reflexivity.
Defined.

Section FoldMore.
Context {D : Type} `{Located D}.
Variable C : DiagnosticLoc.

Lemma compare_lt_trans (a b c : D) :
  hasUri (loc a) = hasUri (loc b) -> hasUri (loc b) = hasUri (loc c) ->
  (compareDiagnosticLoc (loc a) (loc b) < 0)%Z ->
  (compareDiagnosticLoc (loc b) (loc c) <= 0)%Z ->
  (compareDiagnosticLoc (loc a) (loc c) < 0)%Z.
Proof.
  intros Hab Hbc Hlt Hle.
  destruct (Z.ltb_spec (compareDiagnosticLoc (loc a) (loc c)) 0) as [Hx|Hx]; [exact Hx|].
  (* otherwise c <= a, hence b <= a *)
  assert (Hca : (compareDiagnosticLoc (loc c) (loc a) <= 0)%Z)
    by (rewrite (compareDiagnosticLoc_antisym (loc a) (loc c)); lia).
  pose proof (compareDiagnosticLoc_trans (loc b) (loc c) (loc a) Hbc
                (eq_trans (eq_sym Hbc) (eq_sym Hab)) Hle Hca) as Hba.
  rewrite (compareDiagnosticLoc_antisym (loc a) (loc b)) in Hba. lia.
Qed.

Lemma foldNext_first (S : list D) :
  uniformUri S -> forall r, foldNext C S = Some r ->
  exists pre post,
    S = pre ++ r :: post /\
    (forall d, In d pre -> (compareDiagnosticLoc (loc d) C >= 0)%Z ->
               (compareDiagnosticLoc (loc r) (loc d) < 0)%Z) /\
    (forall d, In d post -> (compareDiagnosticLoc (loc d) C >= 0)%Z ->
               (compareDiagnosticLoc (loc r) (loc d) <= 0)%Z).
Proof.
  induction S as [|x S IH] using rev_ind; [discriminate|].
  intros U r. pose proof (uniformUri_init S x U) as US. specialize (IH US).
  assert (Hx : In x (S ++ [x])) by (apply in_or_app; simpl; auto).
  assert (HS : forall s, In s S -> In s (S ++ [x])) by (intros; apply in_or_app; auto).
  rewrite foldNext_snoc. unfold getCloserNext.
  destruct (foldNext C S) as [r0|] eqn:E.
  - destruct (foldNext_least C S US r0 E) as (Hin0 & Hge0 & Hmin0).
    destruct (Z.geb_spec (compareDiagnosticLoc (loc x) C) 0) as [Hxge|Hxlt]; cbn [andb].
    + destruct (Z.gtb_spec (compareDiagnosticLoc (loc r0) (loc x)) 0) as [Hgt|Hle];
        intros [= <-].
      * exists S, []. split; [reflexivity|split; [|intros d []]].
        intros d Hd Hdge.
        apply compare_lt_trans with (b := r0); auto.
        rewrite (compareDiagnosticLoc_antisym (loc r0) (loc x)); lia.
      * destruct (IH r0 eq_refl) as (pre & post & -> & Hpre & Hpost).
        exists pre, (post ++ [x]). split; [rewrite <- app_assoc; reflexivity|].
        split; [exact Hpre|].
        intros d Hd Hdge. apply in_app_or in Hd as [Hd|[<-|[]]]; auto.
    + intros [= <-].
      destruct (IH r0 eq_refl) as (pre & post & -> & Hpre & Hpost).
      exists pre, (post ++ [x]). split; [rewrite <- app_assoc; reflexivity|].
      split; [exact Hpre|].
      intros d Hd Hdge. apply in_app_or in Hd as [Hd|[<-|[]]]; [auto|lia].
  - destruct (Z.geb_spec (compareDiagnosticLoc (loc x) C) 0) as [Hxge|Hxlt];
      [|discriminate].
    intros [= <-]. exists S, []. split; [reflexivity|split; [|intros d []]].
    intros d Hd Hdge. pose proof (proj1 (foldNext_none C S) E d Hd). lia.
Qed.

Lemma foldPrev_snoc (S : list D) (x : D) :
  foldPrev C (S ++ [x]) = getCloserPrev C x (foldPrev C S).
Proof. unfold foldPrev; rewrite fold_left_app; reflexivity. Qed.

Lemma foldPrev_none (S : list D) :
  foldPrev C S = None <->
  forall s, In s S -> (compareDiagnosticLoc (loc s) C >= 0)%Z.
Proof.
  induction S as [|x S IH] using rev_ind.
  - split; [intros _ s []|reflexivity].
  - rewrite foldPrev_snoc. unfold getCloserPrev.
    destruct (foldPrev C S) as [r|] eqn:E.
    + split.
      * destruct (_ && _); discriminate.
      * intros Hall. destruct IH as [_ IH].
        discriminate IH. intros s Hs; apply Hall, in_or_app; auto.
    + destruct (Z.ltb_spec (compareDiagnosticLoc (loc x) C) 0) as [Hlt|Hge].
      * split; [discriminate|].
        intros Hall. assert (Hx : In x (S ++ [x])) by (apply in_or_app; simpl; auto).
        specialize (Hall x Hx). lia.
      * split; [|reflexivity]. intros _ s Hs.
        apply in_app_or in Hs as [Hs|[<-|[]]]; [|lia].
        apply IH; auto.
Qed.

Lemma foldPrev_greatest (S : list D) :
  uniformUri S -> forall r, foldPrev C S = Some r ->
  In r S /\ (compareDiagnosticLoc (loc r) C <= 0)%Z /\
  forall s, In s S -> (compareDiagnosticLoc (loc s) C < 0)%Z ->
            (compareDiagnosticLoc (loc s) (loc r) <= 0)%Z.
Proof.
  induction S as [|x S IH] using rev_ind; [discriminate|].
  intros U r. specialize (IH (uniformUri_init S x U)).
  assert (Hx : In x (S ++ [x])) by (apply in_or_app; simpl; auto).
  assert (HS : forall s, In s S -> In s (S ++ [x])) by (intros; apply in_or_app; auto).
  rewrite foldPrev_snoc. unfold getCloserPrev.
  destruct (foldPrev C S) as [r0|] eqn:E.
  - destruct (IH r0 eq_refl) as (Hin & Hle & Hmax).
    destruct (Z.leb_spec (compareDiagnosticLoc (loc x) C) 0) as [Hxle|Hxgt]; cbn [andb].
    + destruct (Z.ltb_spec (compareDiagnosticLoc (loc r0) (loc x)) 0) as [Hlt|Hge];
        intros [= <-].
      * split; [auto|split; [exact Hxle|]].
        intros s Hs Hslt. apply in_app_or in Hs as [Hs|[<-|[]]].
        -- apply compareDiagnosticLoc_trans with (b := loc r0); auto. lia.
        -- rewrite compareDiagnosticLoc_refl; lia.
      * split; [auto|split; [exact Hle|]].
        intros s Hs Hslt. apply in_app_or in Hs as [Hs|[<-|[]]]; [auto|].
        rewrite (compareDiagnosticLoc_antisym (loc r0) (loc x)); lia.
    + intros [= <-]. split; [auto|split; [exact Hle|]].
      intros s Hs Hslt. apply in_app_or in Hs as [Hs|[<-|[]]]; [auto|lia].
  - destruct (Z.ltb_spec (compareDiagnosticLoc (loc x) C) 0) as [Hxlt|Hxge];
      [|discriminate].
    intros [= <-]. split; [auto|split; [lia|]].
    intros s Hs Hslt. apply in_app_or in Hs as [Hs|[<-|[]]].
    + pose proof (proj1 (foldPrev_none S) E s Hs); lia.
    + rewrite compareDiagnosticLoc_refl; lia.
Qed.

End FoldMore.

(** X10. Ties go to the first marker: on a uniform list the result of
    folding [getCloserNext] is strictly before every earlier-listed marker
    at or after the cursor, and at or before every later-listed one; of
    several least markers the one listed first is returned. *)
Theorem foldNext_first_least (D : Type) `{Located D} (C : DiagnosticLoc) (S : list D) (r : D) :
  uniformUri S -> foldNext C S = Some r ->
  exists pre post,
    S = pre ++ r :: post /\
    (forall d, In d pre -> (compareDiagnosticLoc (loc d) C >= 0)%Z ->
               (compareDiagnosticLoc (loc r) (loc d) < 0)%Z) /\
    (forall d, In d post -> (compareDiagnosticLoc (loc d) C >= 0)%Z ->
               (compareDiagnosticLoc (loc r) (loc d) <= 0)%Z).
Proof. intros U Hr. exact (foldNext_first C S U r Hr). Qed.

Lemma foldNext_first_least_witness :
  let first := markerAt 4 0 Warning (Some (str "one")) in
  let second := markerAt 4 0 Error (Some (str "two")) in
  exists pre post,
    [markerAt 9 0 Error None; first; second] = pre ++ first :: post /\
    (forall d, In d pre -> (compareDiagnosticLoc (loc d) (at_ 2 0) >= 0)%Z ->
               (compareDiagnosticLoc (loc first) (loc d) < 0)%Z) /\
    (forall d, In d post -> (compareDiagnosticLoc (loc d) (at_ 2 0) >= 0)%Z ->
               (compareDiagnosticLoc (loc first) (loc d) <= 0)%Z).
Proof.
  intros first second.
  exact (foldNext_first_least Diagnostic (at_ 2 0)
           [markerAt 9 0 Error None; first; second] first
           (uniformUri_Diagnostic _) eq_refl).
Defined.

(** X11. Folding [getCloserPrev] from [null] yields [null] exactly when no
    marker is strictly before the cursor (a marker at the cursor does not
    start the search); on a uniform list a non-null result is a marker of
    the list at or before the cursor that no marker strictly before the
    cursor comes after. *)
Theorem foldPrev_maximum (D : Type) `{Located D} (C : DiagnosticLoc) (S : list D) :
  (foldPrev C S = None <->
   forall s, In s S -> (compareDiagnosticLoc (loc s) C >= 0)%Z) /\
  (uniformUri S ->
   forall r, foldPrev C S = Some r ->
     In r S /\ (compareDiagnosticLoc (loc r) C <= 0)%Z /\
     forall s, In s S -> (compareDiagnosticLoc (loc s) C < 0)%Z ->
               (compareDiagnosticLoc (loc s) (loc r) <= 0)%Z).
Proof. split; [apply foldPrev_none|apply foldPrev_greatest]. Qed.

Lemma foldPrev_maximum_witness :
  let S := [markerAt 5 0 Error None; markerAt 10 0 Warning None; markerAt 1 0 Error None] in
  In (markerAt 5 0 Error None) S /\
  (compareDiagnosticLoc (loc (markerAt 5 0 Error None)) (at_ 7 0) <= 0)%Z /\
  forall s, In s S -> (compareDiagnosticLoc (loc s) (at_ 7 0) < 0)%Z ->
            (compareDiagnosticLoc (loc s) (loc (markerAt 5 0 Error None)) <= 0)%Z.
Proof.
  intros S.
  exact (proj2 (foldPrev_maximum Diagnostic (at_ 7 0) S) (uniformUri_Diagnostic S)
           (markerAt 5 0 Error None) eq_refl).
Defined.

Section Sides.
Context {D : Type} `{Located D}.

Lemma fold_left_keeps (f : option D -> D -> option D) (P : D -> Prop) (l : list D) :
  (forall acc d r, f acc d = Some r -> acc = Some r \/ P r) ->
  forall a r, fold_left f l a = Some r -> a = Some r \/ P r.
Proof.
  intros Hf. induction l as [|d l IH]; intros a r; cbn [fold_left]; [auto|].
  intros Hr. destruct (IH _ _ Hr) as [Ha|Hp]; [|right; exact Hp].
  apply Hf in Ha. exact Ha.
Qed.

Lemma foldDirection_side (direction : Direction) (cursor : DiagnosticLoc)
    (S : list D) (r : D) :
  foldDirection direction cursor S = Some r ->
  match direction with
  | DirNext => (compareDiagnosticLoc (loc r) cursor >= 0)%Z
  | DirPrev => (compareDiagnosticLoc (loc r) cursor <= 0)%Z
  end.
Proof.
  unfold foldDirection, foldNext, foldPrev. intros Hr. destruct direction.
  - apply fold_left_keeps
      with (P := fun r => (compareDiagnosticLoc (loc r) cursor >= 0)%Z) in Hr;
      [destruct Hr as [Hr|Hr]; [discriminate|exact Hr]|].
    intros acc d r'; unfold getCloserNext; destruct acc as [c|].
    + destruct (Z.geb_spec (compareDiagnosticLoc (loc d) cursor) 0); cbn [andb];
        [destruct (_ >? 0)%Z|]; intros [= <-]; auto. right; lia.
    + destruct (Z.geb_spec (compareDiagnosticLoc (loc d) cursor) 0);
        [intros [= <-]; right; lia|discriminate].
  - apply fold_left_keeps
      with (P := fun r => (compareDiagnosticLoc (loc r) cursor <= 0)%Z) in Hr;
      [destruct Hr as [Hr|Hr]; [discriminate|exact Hr]|].
    intros acc d r'; unfold getCloserPrev; destruct acc as [c|].
    + destruct (Z.leb_spec (compareDiagnosticLoc (loc d) cursor) 0); cbn [andb];
        [destruct (_ <? 0)%Z|]; intros [= <-]; auto.
    + destruct (Z.ltb_spec (compareDiagnosticLoc (loc d) cursor) 0);
        [intros [= <-]; right; lia|discriminate].
Qed.

End Sides.

(** X12. The loop of the two commands never selects on the wrong side: a
    marker it returns belongs to the list, does not start at the position
    of [lastPosition], and is at or after the cursor for ["next"], at or
    before it for ["prev"]. *)
Theorem closestMarker_side (D : Type) `{Located D}
    (lp : option LastPosition) (direction : Direction) (cursor : DiagnosticLoc)
    (diagnostics : list D) (r : D) :
  closestMarker lp direction cursor diagnostics = Some r ->
  In r diagnostics /\
  (forall l, lp = Some l -> start (range (loc r)) <> last_position l) /\
  match direction with
  | DirNext => (compareDiagnosticLoc (loc r) cursor >= 0)%Z
  | DirPrev => (compareDiagnosticLoc (loc r) cursor <= 0)%Z
  end.
Proof.
  intros Hr. destruct (closestMarker_not_skipped lp direction cursor diagnostics r Hr)
    as [Hin Hskip].
  split; [exact Hin|split].
  - intros l -> Hpos. cbn [skipped] in Hskip.
    rewrite (proj2 (isEqual_eq _ _) Hpos) in Hskip. discriminate.
  - rewrite closestMarker_fold in Hr. exact (foldDirection_side direction cursor _ r Hr).
Qed.

Lemma closestMarker_side_witness :
  (compareDiagnosticLoc (loc (markerAt 5 0 Error None)) (at_ 7 0) <= 0)%Z.
Proof.
  exact (proj2 (proj2 (closestMarker_side Diagnostic (Some (visited docA 9 9)) DirPrev (at_ 7 0)
                         [markerAt 5 0 Error None; markerAt 10 0 Warning None;
                          markerAt 1 0 Error None]
                         (markerAt 5 0 Error None) eq_refl))).
Defined.

(** ** Sorting and navigation, continued *)

Section SortMore.
Context {D : Type} `{Located D}.

Lemma sortDiagnostics_head_first (l : list D) (t : D) (rest : list D) :
  sortDiagnostics l = t :: rest ->
  exists pre post,
    l = pre ++ t :: post /\
    forall d, In d pre -> (compareDiagnosticLoc (loc t) (loc d) < 0)%Z.
Proof.
  revert t rest. induction l as [|x l IH]; intros t rest; [discriminate|].
  cbn [sortDiagnostics fold_right]. fold (sortDiagnostics l).
  destruct (sortDiagnostics l) as [|y s] eqn:E; cbn [insertSorted].
  - intros [= <- <-]. exists [], l. split; [reflexivity|intros d []].
  - destruct (Z.leb_spec (compareDiagnosticLoc (loc x) (loc y)) 0) as [Hle|Hgt].
    + intros [= <- <-]. exists [], l. split; [reflexivity|intros d []].
    + intros [= <- <-]. destruct (IH y s eq_refl) as (pre & post & -> & Hpre).
      exists (x :: pre), post. split; [reflexivity|].
      intros d [<-|Hd]; [|apply Hpre; exact Hd].
      rewrite (compareDiagnosticLoc_antisym (loc x) (loc y)); lia.
Qed.

Lemma wrapAround_member (direction : Direction) (l : list D) :
  l <> [] -> exists t, wrapAround direction l = Some t /\ In t l.
Proof.
  intros Hne. destruct direction.
  - destruct (wrapAround_next l Hne) as (t & rest & E & W). exists t; split; [exact W|].
    apply (Permutation_in _ (sortDiagnostics_perm l)). rewrite E; left; reflexivity.
  - destruct (wrapAround_prev l Hne) as (t & front & E & W). exists t; split; [exact W|].
    apply (Permutation_in _ (sortDiagnostics_perm l)). rewrite E.
    apply in_or_app; simpl; auto.
Qed.

End SortMore.

(** X13. On a list whose markers all carry a document identifier or all
    lack one, as the lists the commands sort do, [sortDiagnostics] keeps
    every marker, each as often as it occurs, returns them in ascending
    order of the comparator, and puts first, of the least markers, the one
    that came first in the input (the sort is stable). *)
Theorem sortDiagnostics_ascending (D : Type) `{Located D} (l : list D) :
  uniformUri l ->
  Permutation (sortDiagnostics l) l /\
  StronglySorted leLoc (sortDiagnostics l) /\
  (forall t rest, sortDiagnostics l = t :: rest ->
     exists pre post,
       l = pre ++ t :: post /\
       forall d, In d pre -> (compareDiagnosticLoc (loc t) (loc d) < 0)%Z).
Proof.
  intros U. split; [apply sortDiagnostics_perm|split].
  - apply sortDiagnostics_sorted; exact U.
  - apply sortDiagnostics_head_first.
Qed.

Lemma sortDiagnostics_ascending_witness :
  StronglySorted leLoc
    (sortDiagnostics [markerAt 9 0 Error None; markerAt 2 4 Hint None; markerAt 2 1 Error None]).
Proof.
  exact (proj1 (proj2 (sortDiagnostics_ascending Diagnostic
                         [markerAt 9 0 Error None; markerAt 2 4 Hint None;
                          markerAt 2 1 Error None]
                         (uniformUri_Diagnostic _)))).
Defined.

Lemma list_eq_nil_or_not {A : Type} (l : list A) : l = [] \/ l <> [].
Proof. destruct l; [left; reflexivity|right; discriminate]. Qed.

Lemma compare_in_file (d : Diagnostic) (c : DiagnosticLoc) :
  compareDiagnosticLoc (loc d) c = comparePositions (loc d) c.
Proof. reflexivity. Qed.

Lemma selectInFile_ok (host : Host) (editor : TextEditor) (args : jsval)
    (diagnostics : list Diagnostic) (next : Diagnostic) :
  filterDiagnostics (diagnosticsOf (getDiagnostics host) (document_uri editor)) args
  = Some diagnostics ->
  completion (selectInFile host editor args next) = Returns true /\
  lastPosition (selectInFile host editor args next)
  = Some {| last_uri := document_uri editor; last_position := start (diag_range next) |} /\
  exists rest,
    effects (selectInFile host editor args next)
    = SetSelection (emptyRangeAt (start (diag_range next)))
      :: ExecuteCommand CloseMarkersNavigation :: rest.
Proof.
  intros Hfilter. destruct (filterDiagnostics_args_ok _ _ _ Hfilter) as (b & Hb).
  exact (selectInFile_moves host editor args next b Hb).
Qed.

(** The three ways a call with an active editor and a filter that did not
    throw can end. *)
Lemma gotoMarkerInFile_ends (host : Host) (editor : TextEditor) (args : jsval)
    (diagnostics : list Diagnostic)
    (lp : option LastPosition) (direction : Direction) (loop : bool) :
  activeTextEditor host = Some editor ->
  filterDiagnostics (diagnosticsOf (getDiagnostics host) (document_uri editor)) args
  = Some diagnostics ->
  let out := gotoMarkerInFile host lp args direction loop in
  let lp' := resetLastPosition lp editor in
  (out = {| completion := Returns false; lastPosition := lp'; effects := [] |} /\
   (diagnostics = [] \/ loop = false)) \/
  (exists target,
     In target diagnostics /\ loop = true /\
     alreadyThere lp' editor target = true /\
     out = {| completion := Returns true; lastPosition := lp'; effects := [] |}) \/
  (exists target,
     In target diagnostics /\
     out = selectInFile host editor args target /\
     (closestMarker lp' direction (cursorInFile editor) diagnostics = Some target \/
      (loop = true /\ alreadyThere lp' editor target = false))).
Proof.
  intros Heditor Hfilter. cbv zeta.
  destruct (list_eq_nil_or_not diagnostics) as [->|Hne].
  - left. split; [|left; reflexivity].
    apply (gotoMarkerInFile_empty host editor args [] Heditor Hfilter); reflexivity.
  - rewrite (gotoMarkerInFile_nonempty host editor args diagnostics Heditor Hfilter
               lp direction loop Hne). cbv zeta.
    destruct (closestMarker _ direction _ diagnostics) as [next|] eqn:Hc.
    + right; right. exists next. split; [|split; [reflexivity|left; reflexivity]].
      apply closestMarker_not_skipped in Hc as [Hin _]. exact Hin.
    + destruct loop; [|left; split; [reflexivity|right; reflexivity]].
      destruct (wrapAround_member direction diagnostics Hne) as (t & -> & Hin).
      destruct (alreadyThere _ editor t) eqn:Hthere.
      * right; left. exists t. auto.
      * right; right. exists t. auto.
Qed.

(** X14. [gotoMarkerInFile] throws only when [filterDiagnostics] throws,
    and then nothing has happened: [lastPosition] is as at entry and no
    request was made to the editor. *)
Theorem gotoMarkerInFile_throws
    (host : Host) (lp : option LastPosition) (args : jsval)
    (direction : Direction) (loop : bool) :
  let out := gotoMarkerInFile host lp args direction loop in
  (completion out = Throws <->
   exists editor,
     activeTextEditor host = Some editor /\
     filterDiagnostics (diagnosticsOf (getDiagnostics host) (document_uri editor)) args
     = None) /\
  (completion out = Throws -> lastPosition out = lp /\ effects out = []).
Proof.
  cbv zeta.
  destruct (activeTextEditor host) as [editor|] eqn:Heditor.
  - destruct (filterDiagnostics (diagnosticsOf (getDiagnostics host) (document_uri editor)) args)
      as [ds|] eqn:Hfilter.
    + assert (Hno : completion (gotoMarkerInFile host lp args direction loop) <> Throws).
      { destruct (gotoMarkerInFile_ends host editor args ds lp direction loop Heditor Hfilter)
          as [[-> _]|[(t & _ & _ & _ & ->)|(t & _ & -> & _)]]; try discriminate.
        destruct (selectInFile_ok host editor args ds t Hfilter) as (-> & _).
        discriminate. }
      split; [split|]; try (intros Hx; contradiction).
      intros (e & [= <-] & Hx). congruence.
    + unfold gotoMarkerInFile. rewrite Heditor, Hfilter. cbn [completion lastPosition effects].
      split; [split; [eauto|reflexivity]|auto].
  - unfold gotoMarkerInFile. rewrite Heditor. cbn [completion].
    split; [split; [discriminate|]|discriminate].
    intros (e & He & _); discriminate.
Qed.

Lemma gotoMarkerInFile_throws_witness :
  lastPosition (gotoMarkerInFile hostOneMarker (Some (visited docB 1 1)) JNull DirNext true)
  = Some (visited docB 1 1) /\
  effects (gotoMarkerInFile hostOneMarker (Some (visited docB 1 1)) JNull DirNext true) = [].
Proof.
  apply (proj2 (gotoMarkerInFile_throws hostOneMarker (Some (visited docB 1 1)) JNull
                  DirNext true)).
  reflexivity.
Defined.

(** X15. After a call of [gotoMarkerInFile] with an active editor and a
    filter that did not throw, [lastPosition] is [null] or belongs to the
    active document. *)
Theorem gotoMarkerInFile_lastPosition_document
    (host : Host) (editor : TextEditor) (args : jsval) (diagnostics : list Diagnostic)
    (lp : option LastPosition) (direction : Direction) (loop : bool) (l : LastPosition) :
  activeTextEditor host = Some editor ->
  filterDiagnostics (diagnosticsOf (getDiagnostics host) (document_uri editor)) args
  = Some diagnostics ->
  lastPosition (gotoMarkerInFile host lp args direction loop) = Some l ->
  last_uri l = document_uri editor.
Proof.
  intros Heditor Hfilter.
  destruct (gotoMarkerInFile_ends host editor args diagnostics lp direction loop Heditor Hfilter)
    as [[-> _]|[(t & _ & _ & _ & ->)|(t & _ & -> & _)]]; cbn [lastPosition].
  - intros Hl; apply resetLastPosition_some in Hl as [_ Hl]; exact Hl.
  - intros Hl; apply resetLastPosition_some in Hl as [_ Hl]; exact Hl.
  - destruct (selectInFile_ok host editor args diagnostics t Hfilter) as (_ & -> & _).
    intros [= <-]. reflexivity.
Qed.

Lemma gotoMarkerInFile_lastPosition_document_witness :
  last_uri (visited docA 3 0) = document_uri (editorAt docA 0 0).
Proof.
  exact (gotoMarkerInFile_lastPosition_document
           {| activeTextEditor := Some (editorAt docA 0 0);
              getDiagnostics := [(docA, [markerAt 3 0 Error None])];
              smoothScrolling := false |}
           (editorAt docA 0 0) JUndefined [markerAt 3 0 Error None]
           (Some (visited docB 7 7)) DirNext true (visited docA 3 0)
           eq_refl eq_refl eq_refl).
Defined.

(** X16. With [loop] enabled and a non-empty filtered list the command
    always reports success, and it has a marker of the filtered list to
    show for it: either the cursor already is on that marker, which was the
    last one visited, and nothing is requested; or [lastPosition] becomes
    the start of that marker in the active document and the first requests
    are to put the selection there and to close the marker navigation. *)
Theorem gotoMarkerInFile_loop_succeeds
    (host : Host) (editor : TextEditor) (args : jsval) (diagnostics : list Diagnostic)
    (lp : option LastPosition) (direction : Direction) :
  activeTextEditor host = Some editor ->
  filterDiagnostics (diagnosticsOf (getDiagnostics host) (document_uri editor)) args
  = Some diagnostics ->
  diagnostics <> [] ->
  let out := gotoMarkerInFile host lp args direction true in
  completion out = Returns true /\
  exists target,
    In target diagnostics /\
    ((effects out = [] /\ lastPosition out = lp /\
      lp = Some {| last_uri := document_uri editor;
                   last_position := start (diag_range target) |} /\
      start (selection editor) = start (diag_range target)) \/
     (lastPosition out
      = Some {| last_uri := document_uri editor;
                last_position := start (diag_range target) |} /\
      exists rest,
        effects out
        = SetSelection (emptyRangeAt (start (diag_range target)))
          :: ExecuteCommand CloseMarkersNavigation :: rest)).
Proof.
  intros Heditor Hfilter Hne. cbv zeta.
  destruct (gotoMarkerInFile_ends host editor args diagnostics lp direction true Heditor Hfilter)
    as [[_ [?|?]]|[(t & Hin & _ & Hthere & ->)|(t & Hin & -> & _)]];
    try contradiction; try discriminate.
  - split; [reflexivity|]. exists t. split; [exact Hin|left].
    apply alreadyThere_spec in Hthere as (l & Hl & Hpos & Hsel).
    pose proof (resetLastPosition_some lp editor l Hl) as [-> Huri].
    cbn [effects lastPosition]. rewrite Hl.
    repeat split; auto. destruct l as [u p]; cbn in *; congruence.
  - destruct (selectInFile_ok host editor args diagnostics t Hfilter) as (Hc & Hlp & Heff).
    split; [exact Hc|]. exists t. split; [exact Hin|right]. split; assumption.
Qed.

Lemma gotoMarkerInFile_loop_succeeds_witness :
  completion (gotoMarkerInFile hostOneMarker None JUndefined DirPrev true) = Returns true.
Proof.
  apply (gotoMarkerInFile_loop_succeeds hostOneMarker (editorAt docA 3 0) JUndefined
           [markerAt 3 0 Error None] None DirPrev eq_refl eq_refl).
  discriminate.
Defined.

Lemma isBefore_not_equal (p q : Position) : isBefore p q = true -> isEqual q p = false.
Proof. unfold isBefore, isEqual; destruct p, q; cbn [line character]; intros Hx; nat_cases. Qed.

Lemma isBefore_not_equal' (p q : Position) : isBefore p q = true -> isEqual p q = false.
Proof. unfold isBefore, isEqual; destruct p, q; cbn [line character]; intros Hx; nat_cases. Qed.

Lemma resetLastPosition_same (l : LastPosition) (editor : TextEditor) :
  last_uri l = document_uri editor -> resetLastPosition (Some l) editor = Some l.
Proof.
  intros Huri. unfold resetLastPosition. rewrite Huri, jsstring_eqb_refl. reflexivity.
Qed.

(** X17. Pressing "next" on the marker just visited: when [lastPosition]
    is the start of the current selection in the active document and some
    filtered marker starts strictly after it, the command goes to a marker
    that starts strictly after the cursor and is least among those that do,
    and records it, whatever [loop] is. *)
Theorem gotoMarkerInFile_next_progress
    (host : Host) (editor : TextEditor) (args : jsval) (diagnostics : list Diagnostic)
    (l : LastPosition) (loop : bool) :
  activeTextEditor host = Some editor ->
  filterDiagnostics (diagnosticsOf (getDiagnostics host) (document_uri editor)) args
  = Some diagnostics ->
  last_uri l = document_uri editor ->
  last_position l = start (selection editor) ->
  (exists d, In d diagnostics /\
             isBefore (start (selection editor)) (start (diag_range d)) = true) ->
  exists target,
    In target diagnostics /\
    isBefore (start (selection editor)) (start (diag_range target)) = true /\
    (forall d, In d diagnostics ->
       isBefore (start (selection editor)) (start (diag_range d)) = true ->
       leLoc target d) /\
    let out := gotoMarkerInFile host (Some l) args DirNext loop in
    completion out = Returns true /\
    lastPosition out
    = Some {| last_uri := document_uri editor;
              last_position := start (diag_range target) |} /\
    exists rest,
      effects out
      = SetSelection (emptyRangeAt (start (diag_range target)))
        :: ExecuteCommand CloseMarkersNavigation :: rest.
Proof.
  intros Heditor Hfilter Huri Hpos (d & Hd & Hafter).
  assert (Hne : diagnostics <> []) by (intros ->; destruct Hd).
  set (C := cursorInFile editor). set (S := notSkipped (Some l) diagnostics).
  assert (Hmem : forall x, In x diagnostics ->
                 isBefore (start (selection editor)) (start (diag_range x)) = true ->
                 In x S /\ (compareDiagnosticLoc (loc x) C > 0)%Z).
  { intros x Hx Hxa. split.
    - apply filter_In. split; [exact Hx|]. cbn [skipped]. rewrite Hpos.
      change (start (range (loc x))) with (start (diag_range x)).
      rewrite (isBefore_not_equal _ _ Hxa). reflexivity.
    - rewrite compare_in_file. apply (proj2 (comparePositions_gt (loc x) C)). exact Hxa. }
  destruct (foldNext C S) as [r|] eqn:Hfold.
  - destruct (foldNext_least C S (uniformUri_Diagnostic S) r Hfold) as (Hin & Hge & Hmin).
    apply filter_In in Hin as [Hin Hskip].
    exists r. split; [exact Hin|]. split; [|split].
    + cbn [skipped] in Hskip. rewrite Hpos in Hskip.
      change (start (range (loc r))) with (start (diag_range r)) in Hskip.
      assert (H0 : comparePositions (loc r) C <> 0%Z).
      { intros H0. apply comparePositions_zero in H0.
        change (start (range (loc r))) with (start (diag_range r)) in H0.
        change (start (range C)) with (start (selection editor)) in H0.
        rewrite H0 in Hskip. destruct (start (selection editor)) as [ln ch'].
        unfold isEqual in Hskip. cbn [line character] in Hskip.
        rewrite !Nat.eqb_refl in Hskip. discriminate. }
      rewrite compare_in_file in Hge.
      change (isBefore (start (range C)) (start (range (loc r))) = true).
      apply (proj1 (comparePositions_gt (loc r) C)). lia.
    + intros x Hx Hxa. destruct (Hmem x Hx Hxa) as [HxS Hxgt].
      apply Hmin; [exact HxS|lia].
    + cbv zeta.
      rewrite (gotoMarkerInFile_nonempty host editor args diagnostics Heditor Hfilter
                 (Some l) DirNext loop Hne). cbv zeta.
      rewrite (resetLastPosition_same l editor Huri), closestMarker_fold.
      cbn [foldDirection]. fold S C. rewrite Hfold.
      exact (selectInFile_ok host editor args diagnostics r Hfilter).
  - exfalso. destruct (Hmem d Hd Hafter) as [HdS Hdgt].
    pose proof (proj1 (foldNext_none C S) Hfold d HdS). lia.
Qed.

Lemma gotoMarkerInFile_next_progress_witness :
  let host := {| activeTextEditor := Some (editorAt docA 3 0);
                 getDiagnostics := [(docA, [markerAt 9 0 Error None; markerAt 3 0 Error None;
                                            markerAt 5 2 Warning None])];
                 smoothScrolling := false |} in
  exists target,
    In target [markerAt 9 0 Error None; markerAt 3 0 Error None; markerAt 5 2 Warning None] /\
    isBefore (pos 3 0) (start (diag_range target)) = true /\
    lastPosition (gotoMarkerInFile host (Some (visited docA 3 0)) JUndefined DirNext false)
    = Some {| last_uri := docA; last_position := start (diag_range target) |}.
Proof.
  intros host.
  destruct (gotoMarkerInFile_next_progress host (editorAt docA 3 0) JUndefined
              [markerAt 9 0 Error None; markerAt 3 0 Error None; markerAt 5 2 Warning None]
              (visited docA 3 0) false eq_refl eq_refl eq_refl eq_refl)
    as (target & Hin & Hafter & _ & _ & Hlp & _).
  - exists (markerAt 9 0 Error None). split; [left; reflexivity|reflexivity].
  - exists target. auto.
Defined.

(** X18. Pressing "prev" on the marker just visited: when [lastPosition]
    is the start of the current selection in the active document and some
    filtered marker starts strictly before it, the command goes to a marker
    that starts strictly before the cursor and is greatest among those that
    do, and records it, whatever [loop] is. *)
Theorem gotoMarkerInFile_prev_progress
    (host : Host) (editor : TextEditor) (args : jsval) (diagnostics : list Diagnostic)
    (l : LastPosition) (loop : bool) :
  activeTextEditor host = Some editor ->
  filterDiagnostics (diagnosticsOf (getDiagnostics host) (document_uri editor)) args
  = Some diagnostics ->
  last_uri l = document_uri editor ->
  last_position l = start (selection editor) ->
  (exists d, In d diagnostics /\
             isBefore (start (diag_range d)) (start (selection editor)) = true) ->
  exists target,
    In target diagnostics /\
    isBefore (start (diag_range target)) (start (selection editor)) = true /\
    (forall d, In d diagnostics ->
       isBefore (start (diag_range d)) (start (selection editor)) = true ->
       leLoc d target) /\
    let out := gotoMarkerInFile host (Some l) args DirPrev loop in
    completion out = Returns true /\
    lastPosition out
    = Some {| last_uri := document_uri editor;
              last_position := start (diag_range target) |} /\
    exists rest,
      effects out
      = SetSelection (emptyRangeAt (start (diag_range target)))
        :: ExecuteCommand CloseMarkersNavigation :: rest.
Proof.
  intros Heditor Hfilter Huri Hpos (d & Hd & Hbefore).
  assert (Hne : diagnostics <> []) by (intros ->; destruct Hd).
  set (C := cursorInFile editor). set (S := notSkipped (Some l) diagnostics).
  assert (Hmem : forall x, In x diagnostics ->
                 isBefore (start (diag_range x)) (start (selection editor)) = true ->
                 In x S /\ (compareDiagnosticLoc (loc x) C < 0)%Z).
  { intros x Hx Hxb. split.
    - apply filter_In. split; [exact Hx|]. cbn [skipped]. rewrite Hpos.
      change (start (range (loc x))) with (start (diag_range x)).
      rewrite (isBefore_not_equal' _ _ Hxb). reflexivity.
    - rewrite compare_in_file. apply (proj2 (comparePositions_lt (loc x) C)). exact Hxb. }
  destruct (foldPrev C S) as [r|] eqn:Hfold.
  - destruct (foldPrev_greatest C S (uniformUri_Diagnostic S) r Hfold) as (Hin & Hle & Hmax).
    apply filter_In in Hin as [Hin Hskip].
    exists r. split; [exact Hin|]. split; [|split].
    + cbn [skipped] in Hskip. rewrite Hpos in Hskip.
      change (start (range (loc r))) with (start (diag_range r)) in Hskip.
      assert (H0 : comparePositions (loc r) C <> 0%Z).
      { intros H0. apply comparePositions_zero in H0.
        change (start (range (loc r))) with (start (diag_range r)) in H0.
        change (start (range C)) with (start (selection editor)) in H0.
        rewrite H0 in Hskip. destruct (start (selection editor)) as [ln ch'].
        unfold isEqual in Hskip. cbn [line character] in Hskip.
        rewrite !Nat.eqb_refl in Hskip. discriminate. }
      rewrite compare_in_file in Hle.
      change (isBefore (start (range (loc r))) (start (range C)) = true).
      apply (proj1 (comparePositions_lt (loc r) C)). lia.
    + intros x Hx Hxb. destruct (Hmem x Hx Hxb) as [HxS Hxlt].
      apply Hmax; [exact HxS|exact Hxlt].
    + cbv zeta.
      rewrite (gotoMarkerInFile_nonempty host editor args diagnostics Heditor Hfilter
                 (Some l) DirPrev loop Hne). cbv zeta.
      rewrite (resetLastPosition_same l editor Huri), closestMarker_fold.
      cbn [foldDirection]. fold S C. rewrite Hfold.
      exact (selectInFile_ok host editor args diagnostics r Hfilter).
  - exfalso. destruct (Hmem d Hd Hbefore) as [HdS Hdlt].
    pose proof (proj1 (foldPrev_none C S) Hfold d HdS). lia.
Qed.

Lemma gotoMarkerInFile_prev_progress_witness :
  let host := {| activeTextEditor := Some (editorAt docA 5 2);
                 getDiagnostics := [(docA, [markerAt 9 0 Error None; markerAt 3 0 Error None;
                                            markerAt 5 2 Warning None])];
                 smoothScrolling := false |} in
  exists target,
    In target [markerAt 9 0 Error None; markerAt 3 0 Error None; markerAt 5 2 Warning None] /\
    isBefore (start (diag_range target)) (pos 5 2) = true /\
    lastPosition (gotoMarkerInFile host (Some (visited docA 5 2)) JUndefined DirPrev false)
    = Some {| last_uri := docA; last_position := start (diag_range target) |}.
Proof.
  intros host.
  destruct (gotoMarkerInFile_prev_progress host (editorAt docA 5 2) JUndefined
              [markerAt 9 0 Error None; markerAt 3 0 Error None; markerAt 5 2 Warning None]
              (visited docA 5 2) false eq_refl eq_refl eq_refl eq_refl)
    as (target & Hin & Hbefore & _ & _ & Hlp & _).
  - exists (markerAt 3 0 Error None). split; [right; left; reflexivity|reflexivity].
  - exists target. auto.
Defined.

Lemma diagnosticsWithUri_in (all : list (Uri * list Diagnostic)) (dw : DiagnosticWithUri) :
  In dw (diagnosticsWithUri all) <->
  exists ds, In (diag_uri dw, ds) all /\ In (diag dw) ds.
Proof.
  unfold diagnosticsWithUri. rewrite in_flat_map. split.
  - intros ([u ds] & Hin & Hm). cbn [fst snd] in Hm.
    apply in_map_iff in Hm as (d & <- & Hd). exists ds. auto.
  - intros (ds & Hin & Hd). exists (diag_uri dw, ds). split; [exact Hin|].
    cbn [fst snd]. apply in_map_iff. exists (diag dw). split; [|exact Hd].
    destruct dw; reflexivity.
Qed.

Lemma targetInFiles_member (lp : option LastPosition) (direction : Direction)
    (cursor : DiagnosticLoc) (ds : list DiagnosticWithUri) :
  ds <> [] -> exists next, targetInFiles lp direction cursor ds = Some next /\ In next ds.
Proof.
  intros Hne. unfold targetInFiles.
  destruct (closestMarker lp direction cursor ds) as [next|] eqn:Hc.
  - exists next. split; [reflexivity|].
    apply closestMarker_not_skipped in Hc as [Hin _]; exact Hin.
  - apply wrapAround_member; exact Hne.
Qed.

(** X19. When [filterDiagnostics] throws, [gotoNextMarkerInFiles] throws
    with [lastPosition] as at entry and no request made; when the filtered
    list is empty it returns having done nothing. Otherwise it always has a
    marker of the filtered list to go to, one the host reports for the
    document it asks to open: it records that marker in [lastPosition] and
    asks, in this order, to open the document, to put the selection on the
    marker's start, to close the marker navigation and to run the built-in
    command of the direction. *)
Theorem gotoNextMarkerInFiles_outcome
    (host : Host) (lp : option LastPosition) (args : jsval) (direction : Direction) :
  let out := gotoNextMarkerInFiles host lp args direction in
  match filterDiagnostics (diagnosticsWithUri (getDiagnostics host)) args with
  | None => out = {| completion := Throws; lastPosition := lp; effects := [] |}
  | Some [] => out = {| completion := Returns tt; lastPosition := lp; effects := [] |}
  | Some ds =>
      exists next docDiagnostics,
        In next ds /\
        In (diag_uri next, docDiagnostics) (getDiagnostics host) /\
        In (diag next) docDiagnostics /\
        lastPosition out
        = Some {| last_uri := diag_uri next;
                  last_position := start (diag_range (diag next)) |} /\
        effects out
        = [ShowTextDocument (diag_uri next);
           SetSelection (emptyRangeAt (start (diag_range (diag next))));
           ExecuteCommand CloseMarkersNavigation;
           ExecuteCommand (match direction with
                           | DirNext => MarkerNextInFiles
                           | DirPrev => MarkerPrevInFiles
                           end)]
  end.
Proof.
  cbv zeta. unfold gotoNextMarkerInFiles.
  destruct (filterDiagnostics (diagnosticsWithUri (getDiagnostics host)) args)
    as [[|d0 ds]|] eqn:Hfilter; try reflexivity.
  destruct (targetInFiles_member lp direction (cursorInFiles host) (d0 :: ds))
    as (next & Ht & Hin); [discriminate|].
  cbn [List.length Nat.eqb]. rewrite Ht.
  destruct (filterDiagnostics_kept _ _ _ Hfilter) as (g & Hg).
  assert (Hall : In next (diagnosticsWithUri (getDiagnostics host))).
  { rewrite Hg in Hin. apply filter_In in Hin as [Hin _].
    unfold keptBySeverity in Hin. destruct (severitiesOf args); [|destruct Hin].
    apply filter_In in Hin as [Hin _]. exact Hin. }
  apply diagnosticsWithUri_in in Hall as (docDiagnostics & Hdoc & Hd).
  exists next, docDiagnostics. cbn [lastPosition effects]. auto.
Qed.

Section InFilesWrap.
Variables (host : Host) (args : jsval) (diagnostics : list DiagnosticWithUri).
Variables (lp : option LastPosition) (direction : Direction).
Hypothesis Hfilter :
  filterDiagnostics (diagnosticsWithUri (getDiagnostics host)) args = Some diagnostics.
Hypothesis Hne : diagnostics <> [].
Hypothesis Hfold :
  foldDirection direction (cursorInFiles host) (notSkipped lp diagnostics) = None.

Lemma gotoNextMarkerInFiles_wraps (target : DiagnosticWithUri) :
  wrapAround direction diagnostics = Some target ->
  lastPosition (gotoNextMarkerInFiles host lp args direction)
  = Some {| last_uri := diag_uri target;
            last_position := start (diag_range (diag target)) |} /\
  effects (gotoNextMarkerInFiles host lp args direction)
  = [ShowTextDocument (diag_uri target);
     SetSelection (emptyRangeAt (start (diag_range (diag target))));
     ExecuteCommand CloseMarkersNavigation;
     ExecuteCommand (match direction with
                     | DirNext => MarkerNextInFiles
                     | DirPrev => MarkerPrevInFiles
                     end)].
Proof.
  intros Hwrap. unfold gotoNextMarkerInFiles, targetInFiles.
  rewrite Hfilter, closestMarker_fold, Hfold, Hwrap.
  destruct diagnostics; [contradiction|]. split; reflexivity.
Qed.

End InFilesWrap.

(** X20. Wraparound across documents: when the directional fold over the
    candidates that are not skipped yields [null] and the filtered list is
    not empty, [gotoNextMarkerInFiles] goes to the first element of the
    sorted filtered list for ["next"], a least marker in the order of
    document identifier then position, and to the last, a greatest one,
    for ["prev"]. It does so even when the cursor already is on that
    marker: the requests are made all the same. *)
Theorem gotoNextMarkerInFiles_wraparound
    (host : Host) (args : jsval) (diagnostics : list DiagnosticWithUri)
    (lp : option LastPosition) (direction : Direction) :
  filterDiagnostics (diagnosticsWithUri (getDiagnostics host)) args = Some diagnostics ->
  diagnostics <> [] ->
  foldDirection direction (cursorInFiles host) (notSkipped lp diagnostics) = None ->
  exists target,
    match direction with
    | DirNext =>
        (exists rest, sortDiagnostics diagnostics = target :: rest) /\
        forall d, In d diagnostics -> leLoc target d
    | DirPrev =>
        (exists front, sortDiagnostics diagnostics = front ++ [target]) /\
        forall d, In d diagnostics -> leLoc d target
    end /\
    let out := gotoNextMarkerInFiles host lp args direction in
    lastPosition out
    = Some {| last_uri := diag_uri target;
              last_position := start (diag_range (diag target)) |} /\
    effects out
    = [ShowTextDocument (diag_uri target);
       SetSelection (emptyRangeAt (start (diag_range (diag target))));
       ExecuteCommand CloseMarkersNavigation;
       ExecuteCommand (match direction with
                       | DirNext => MarkerNextInFiles
                       | DirPrev => MarkerPrevInFiles
                       end)].
Proof.
  intros Hfilter Hne Hfold. destruct direction.
  - destruct (wrapAround_next diagnostics Hne) as (t & rest & E & W).
    exists t. split; [split; [eauto|]|].
    + apply (sorted_first_least diagnostics t rest (uniformUri_DiagnosticWithUri _) E).
    + exact (gotoNextMarkerInFiles_wraps host args diagnostics lp DirNext
               Hfilter Hne Hfold t W).
  - destruct (wrapAround_prev diagnostics Hne) as (t & front & E & W).
    exists t. split; [split; [eauto|]|].
    + apply (sorted_last_greatest diagnostics front t (uniformUri_DiagnosticWithUri _) E).
    + exact (gotoNextMarkerInFiles_wraps host args diagnostics lp DirPrev
               Hfilter Hne Hfold t W).
Qed.

Lemma gotoNextMarkerInFiles_wraparound_witness :
  let host := {| activeTextEditor := Some (editorAt docB 8 0);
                 getDiagnostics := [(docB, [markerAt 2 0 Error None]);
                                    (docA, [markerAt 6 0 Error None])];
                 smoothScrolling := false |} in
  lastPosition (gotoNextMarkerInFiles host None JUndefined DirNext)
  = Some (visited docA 6 0).
Proof.
  intros host.
  destruct (gotoNextMarkerInFiles_wraparound host JUndefined
              [ {| diag := markerAt 2 0 Error None; diag_uri := docB |};
                {| diag := markerAt 6 0 Error None; diag_uri := docA |} ]
              None DirNext eq_refl)
    as (target & (Hsorted & _) & Hlp & _).
  - discriminate.
  - reflexivity.
  - destruct Hsorted as (rest & Hsorted). injection Hsorted as <- _. exact Hlp.
Defined.

(** X21. Wrapping around from the marker just visited: when [lastPosition]
    is the start of the current selection in the active document, [loop] is
    enabled and no filtered marker starts strictly beyond the cursor in the
    direction asked, the target is the first marker of the sorted filtered
    list for ["next"] and the last for ["prev"]. If it starts where the
    cursor is, the command reports success and changes nothing; otherwise
    it goes there. *)
Theorem gotoMarkerInFile_wrap_step
    (host : Host) (editor : TextEditor) (args : jsval) (diagnostics : list Diagnostic)
    (l : LastPosition) (direction : Direction) :
  activeTextEditor host = Some editor ->
  filterDiagnostics (diagnosticsOf (getDiagnostics host) (document_uri editor)) args
  = Some diagnostics ->
  last_uri l = document_uri editor ->
  last_position l = start (selection editor) ->
  diagnostics <> [] ->
  (forall d, In d diagnostics ->
     match direction with
     | DirNext => isBefore (start (selection editor)) (start (diag_range d)) = false
     | DirPrev => isBefore (start (diag_range d)) (start (selection editor)) = false
     end) ->
  exists target,
    match direction with
    | DirNext =>
        (exists rest, sortDiagnostics diagnostics = target :: rest) /\
        forall d, In d diagnostics -> leLoc target d
    | DirPrev =>
        (exists front, sortDiagnostics diagnostics = front ++ [target]) /\
        forall d, In d diagnostics -> leLoc d target
    end /\
    let out := gotoMarkerInFile host (Some l) args direction true in
    (start (diag_range target) = start (selection editor) ->
       out = {| completion := Returns true; lastPosition := Some l; effects := [] |}) /\
    (start (diag_range target) <> start (selection editor) ->
       completion out = Returns true /\
       lastPosition out
       = Some {| last_uri := document_uri editor;
                 last_position := start (diag_range target) |} /\
       exists rest,
         effects out
         = SetSelection (emptyRangeAt (start (diag_range target)))
           :: ExecuteCommand CloseMarkersNavigation :: rest).
Proof.
  intros Heditor Hfilter Huri Hpos Hne Hnone.
  set (C := cursorInFile editor). set (S := notSkipped (Some l) diagnostics).
  assert (Hfold : foldDirection direction C S = None).
  { destruct direction; cbn [foldDirection].
    - apply foldNext_none. intros s Hs. apply filter_In in Hs as [Hs Hskip].
      specialize (Hnone s Hs). cbn beta iota in Hnone.
      rewrite compare_in_file.
      destruct (Z.ltb_spec (comparePositions (loc s) C) 0) as [Hlt|Hge]; [exact Hlt|].
      exfalso. destruct (Z.eq_dec (comparePositions (loc s) C) 0) as [H0|H0].
      + apply comparePositions_zero in H0. cbn [skipped] in Hskip.
        change (start (range C)) with (start (selection editor)) in H0.
        rewrite Hpos in Hskip. rewrite (proj2 (isEqual_eq _ _) H0) in Hskip. discriminate.
      + assert (Hgt : (comparePositions (loc s) C > 0)%Z) by lia.
        apply comparePositions_gt in Hgt.
        change (isBefore (start (selection editor)) (start (diag_range s)) = true) in Hgt.
        congruence.
    - apply foldPrev_none. intros s Hs. apply filter_In in Hs as [Hs _].
      specialize (Hnone s Hs). cbn beta iota in Hnone.
      rewrite compare_in_file.
      destruct (Z.ltb_spec (comparePositions (loc s) C) 0) as [Hlt|Hge]; [|lia].
      exfalso. apply comparePositions_lt in Hlt.
      change (isBefore (start (diag_range s)) (start (selection editor)) = true) in Hlt.
      congruence. }
  destruct (wrapAround_target diagnostics direction Hne) as (target & Hwrap & Hsorted).
  exists target. split; [exact Hsorted|]. cbv zeta.
  rewrite (gotoMarkerInFile_nonempty host editor args diagnostics Heditor Hfilter
             (Some l) direction true Hne). cbv zeta.
  rewrite (resetLastPosition_same l editor Huri), closestMarker_fold.
  fold S C. rewrite Hfold, Hwrap.
  unfold alreadyThere. rewrite Hpos.
  destruct (isEqual (start (selection editor)) (start (diag_range target))) eqn:Heq;
    cbn [andb].
  - apply isEqual_eq in Heq. split; [reflexivity|]. intros Hx; congruence.
  - split.
    + intros Hx. rewrite Hx in Heq. rewrite (proj2 (isEqual_eq _ _) eq_refl) in Heq.
      discriminate.
    + intros _. exact (selectInFile_ok host editor args diagnostics target Hfilter).
Qed.

Lemma gotoMarkerInFile_wrap_step_witness :
  let host := {| activeTextEditor := Some (editorAt docA 9 0);
                 getDiagnostics := [(docA, [markerAt 9 0 Error None; markerAt 3 0 Error None])];
                 smoothScrolling := false |} in
  lastPosition (gotoMarkerInFile host (Some (visited docA 9 0)) JUndefined DirNext true)
  = Some (visited docA 3 0).
Proof.
  intros host.
  destruct (gotoMarkerInFile_wrap_step host (editorAt docA 9 0) JUndefined
              [markerAt 9 0 Error None; markerAt 3 0 Error None]
              (visited docA 9 0) DirNext eq_refl eq_refl eq_refl eq_refl)
    as (target & (Hsorted & _) & _ & Hmove).
  - discriminate.
  - intros d [<-|[<-|[]]]; reflexivity.
  - destruct Hsorted as (rest & Hsorted). injection Hsorted as <- _.
    destruct Hmove as (_ & Hlp & _); [discriminate|exact Hlp].
Defined.

Lemma disjoint_not_both (r1 r2 : Range) (p : Position) :
  isBefore (end_ r1) (start r2) = true ->
  containsPosition r1 p && containsPosition r2 p = false.
Proof.
  unfold containsPosition, isBefore.
  destruct (end_ r1) as [l1 c1], (start r2) as [l2 c2], p as [lp cp],
    (start r1) as [l0 c0], (end_ r2) as [l3 c3]; cbn [line character].
  intros Hx. apply andb_false_iff. rewrite !negb_false_iff, !orb_true_iff.
  nat_cases; auto.
Qed.

(** X22. The hover path reveals the marker unless every visible range
    contains the new selection. An editor with two visible ranges, one
    ending before the other starts, has no position inside both, so there
    the marker's range is always revealed before the hover is shown. *)
Theorem selectInFile_reveals_when_split
    (host : Host) (editor : TextEditor) (args : jsval) (next : Diagnostic) (r1 r2 : Range) :
  isFilterErrorOnly args = Some false ->
  In r1 (visibleRanges editor) -> In r2 (visibleRanges editor) ->
  isBefore (end_ r1) (start r2) = true ->
  exists wait,
    effects (selectInFile host editor args next)
    = [SetSelection (emptyRangeAt (start (diag_range next)));
       ExecuteCommand CloseMarkersNavigation;
       RevealRange (diag_range next)] ++ wait ++ [ExecuteCommand ShowHover] /\
    wait = if smoothScrolling host then [Delay 150] else [].
Proof.
  intros Hb H1 H2 Hdisj. unfold selectInFile. rewrite Hb.
  set (sel := emptyRangeAt (start (diag_range next))).
  assert (Hall : forallb (fun r => containsRange r sel) (visibleRanges editor) = false).
  { destruct (forallb _ (visibleRanges editor)) eqn:Hf; [|reflexivity].
    rewrite forallb_forall in Hf.
    pose proof (Hf r1 H1) as Hc1. pose proof (Hf r2 H2) as Hc2.
    unfold containsRange, sel in Hc1, Hc2. cbn [emptyRangeAt start end_] in Hc1, Hc2.
    apply andb_true_iff in Hc1 as [Hc1 _]. apply andb_true_iff in Hc2 as [Hc2 _].
    pose proof (disjoint_not_both r1 r2 (start (diag_range next)) Hdisj) as Hno.
    rewrite Hc1, Hc2 in Hno. discriminate. }
  rewrite Hall. cbn [negb effects app]. eexists. split; reflexivity.
Qed.

Lemma selectInFile_reveals_when_split_witness :
  let editor := {| document_uri := docA; selection := emptyRangeAt (pos 0 0);
                   visibleRanges := [ {| start := pos 0 0; end_ := pos 10 0 |};
                                      {| start := pos 40 0; end_ := pos 60 0 |} ] |} in
  exists wait,
    effects (selectInFile hostOneMarker editor JUndefined (markerAt 3 0 Error None))
    = [SetSelection (emptyRangeAt (pos 3 0));
       ExecuteCommand CloseMarkersNavigation;
       RevealRange (diag_range (markerAt 3 0 Error None))] ++ wait ++ [ExecuteCommand ShowHover] /\
    wait = if smoothScrolling hostOneMarker then [Delay 150] else [].
Proof.
  intros editor.
  apply (selectInFile_reveals_when_split hostOneMarker editor JUndefined
           (markerAt 3 0 Error None)
           {| start := pos 0 0; end_ := pos 10 0 |} {| start := pos 40 0; end_ := pos 60 0 |}
           eq_refl).
  - left; reflexivity.
  - right; left; reflexivity.
  - reflexivity.
Defined.
